(** * The AppleScript bridge of the macOS Contacts server

    A shallow embedding of [src/index.ts] (class [MacOSContactsServer]):
    the script escaper, the script texts each operation builds, the
    executor seen as an external process, the parsers of its flattened
    text output, and the five operations built from them.

    Conventions of the embedding.
    - A JavaScript string is a [string]; each [ascii] stands for one code
      unit.  Every string operation of the source used here ([replace],
      [split], [join], [trim], template literals) works code unit by code
      unit; the texts followed here are those over the code units below
      256.
    - [undefined] is [None]; an optional request field is an [option].
    - An integer argument ([limit]) is a [Z].
    - The external process and the console are effects: operations run in
      a state-and-exception monad over an abstract world. *)

From Stdlib Require Import String Ascii List ZArith Lia Bool.
From Stdlib Require Import Numbers.DecimalString.
Import ListNotations.

Open Scope list_scope.
Open Scope string_scope.

(** ** Characters the source names by escape sequences *)

Definition backslash : ascii := "092"%char.
Definition dquote : ascii := "034"%char.
Definition newline : ascii := "010"%char.
Definition creturn : ascii := "013"%char.
Definition tab : ascii := "009"%char.

(** One-character strings, to splice into script texts. *)
Definition bs : string := String backslash EmptyString.
Definition dq : string := String dquote EmptyString.
Definition nl : string := String newline EmptyString.

(** ** JavaScript string and array primitives *)

Module JS.

(** [s.replace(/c/g, r)] for a pattern that matches the single code unit
    [c] and a replacement [r] without dollar patterns. *)
Fixpoint replaceAll (c : ascii) (r : string) (s : string) : string :=
  match s with
  | EmptyString => EmptyString
  | String x s' =>
      if Ascii.eqb x c then r ++ replaceAll c r s'
      else String x (replaceAll c r s')
  end.

(** [s.startsWith(p)]. *)
Fixpoint startsWith (p s : string) : bool :=
  match p, s with
  | EmptyString, _ => true
  | String a p', String b s' => Ascii.eqb a b && startsWith p' s'
  | String _ _, EmptyString => false
  end.

(** [s.includes(p)]. *)
Fixpoint includes (p s : string) : bool :=
  match s with
  | EmptyString => startsWith p s
  | String _ s' => startsWith p s || includes p s'
  end.

(** The scan of [s.split(sep)] for a non-empty separator: [skip] counts
    the code units of a separator just matched that are still to be
    passed over, [cur] is the piece being collected. *)
Fixpoint splitFrom (sep : string) (skip : nat) (cur : string) (s : string)
  : list string :=
  match s with
  | EmptyString => [cur]
  | String x s' =>
      match skip with
      | S k => splitFrom sep k cur s'
      | O =>
          if startsWith sep s
          then cur :: splitFrom sep (String.length sep - 1) EmptyString s'
          else splitFrom sep 0 (cur ++ String x EmptyString) s'
      end
  end.

(** [s.split(sep)], [sep] a non-empty string.  The empty string splits
    into one empty piece. *)
Definition split (sep : string) (s : string) : list string :=
  splitFrom sep 0 EmptyString s.

(** [parts.join(sep)]. *)
Fixpoint join (sep : string) (parts : list string) : string :=
  match parts with
  | [] => EmptyString
  | [p] => p
  | p :: rest => p ++ sep ++ join sep rest
  end.

(** White space as [trim] sees it, among the code units below 256. *)
Definition isWhiteSpace (c : ascii) : bool :=
  existsb (Ascii.eqb c)
    ["009"%char; "010"%char; "011"%char; "012"%char; "013"%char;
     " "%char; "160"%char].

Fixpoint trimStart (s : string) : string :=
  match s with
  | EmptyString => EmptyString
  | String c s' => if isWhiteSpace c then trimStart s' else s
  end.

Fixpoint trimEnd (s : string) : string :=
  match s with
  | EmptyString => EmptyString
  | String c s' =>
      match trimEnd s' with
      | EmptyString => if isWhiteSpace c then EmptyString else String c EmptyString
      | t => String c t
      end
  end.

(** [s.trim()]. *)
Definition trim (s : string) : string := trimEnd (trimStart s).

(** Truthiness of a string: the empty string is falsy. *)
Definition truthy (s : string) : bool :=
  match s with EmptyString => false | String _ _ => true end.

(** [x || d] where [x] is a string or [undefined]. *)
Definition orElse (x : option string) (d : string) : string :=
  match x with
  | Some s => if truthy s then s else d
  | None => d
  end.

(** [arr.slice(0, end)] for an integer [end]: a negative [end] counts
    from the end of the array. *)
Definition slice0 {A : Type} (l : list A) (e : Z) : list A :=
  if (e <? 0)%Z
  then firstn (Z.to_nat (Z.of_nat (List.length l) + e)) l
  else firstn (Z.to_nat e) l.

(** [String(n)] for an integer [n], in plain decimal.  This is what
    JavaScript prints for the integers of magnitude below 10^21 that a
    number holds exactly; beyond that it prints an exponent form, which
    is not followed here.  The source only prints row bounds and
    positions with it. *)
Definition numberToString (n : Z) : string :=
  NilZero.string_of_int (Z.to_int n).

(** [arr.forEach((x, index) => ...)] where the callback updates one
    local variable of type [S]; [from] is the index of the head. *)
Fixpoint forEachFrom {A S : Type} (from : nat) (f : A -> nat -> S -> S)
    (l : list A) (acc : S) : S :=
  match l with
  | [] => acc
  | x :: l' => forEachFrom (Datatypes.S from) f l' (f x from acc)
  end.

Definition forEach {A S : Type} (f : A -> nat -> S -> S) (l : list A) (acc : S) : S :=
  forEachFrom 0 f l acc.

End JS.

(** ** Script Escaper *)

(** [escapeForAppleScript], index.ts lines 258-267: five global
    replacements chained left to right. *)
Definition escapeForAppleScript (str : string) : string :=
  JS.replaceAll tab (bs ++ "t")
    (JS.replaceAll creturn (bs ++ "r")
      (JS.replaceAll newline (bs ++ "n")
        (JS.replaceAll dquote (bs ++ dq)
          (JS.replaceAll backslash (bs ++ bs) str)))).

(** The escaper as the specification words it: an ordered list of
    substitutions, each one replacing every occurrence of one character
    by its escaped form, applied one after the other. *)
Module EscaperSpec.

Definition substitute (c : ascii) (r : string) (s : string) : string :=
  String.concat EmptyString
    (map (fun x => if Ascii.eqb x c then r else String x EmptyString)
         (list_ascii_of_string s)).

Definition substitutions : list (ascii * string) :=
  [ (backslash, bs ++ bs);
    (dquote, bs ++ dq);
    (newline, bs ++ "n");
    (creturn, bs ++ "r");
    (tab, bs ++ "t") ].

Definition escape (raw : string) : string :=
  fold_left (fun acc cr => substitute (fst cr) (snd cr) acc) substitutions raw.

End EscaperSpec.

(** What a single left-to-right pass writes for one character. *)
Definition escapeChar (c : ascii) : string :=
  if Ascii.eqb c backslash then bs ++ bs
  else if Ascii.eqb c dquote then bs ++ dq
  else if Ascii.eqb c newline then bs ++ "n"
  else if Ascii.eqb c creturn then bs ++ "r"
  else if Ascii.eqb c tab then bs ++ "t"
  else String c EmptyString.

Fixpoint escapeOnePass (s : string) : string :=
  match s with
  | EmptyString => EmptyString
  | String c s' => escapeChar c ++ escapeOnePass s'
  end.

(** ** Request and response records *)

Module Url.
Record t := { label : string; value : string }.
End Url.

(** The record [getContact] assembles. *)
Module Contact.
Record t := {
  id : string;
  name : string;
  organization : string;
  job_title : string;
  note : string;
  emails : list string;
  phones : list string;
  urls : list Url.t
}.
End Contact.

(** Arguments of [search_contacts]. *)
Module SearchArgs.
Record t := { query : option string; limit : option Z }.
End SearchArgs.

(** Arguments of [create_contact]; only [name] is required. *)
Module CreateArgs.
Record t := {
  name : string;
  organization : option string;
  job_title : option string;
  emails : option (list string);
  phones : option (list string);
  urls : option (list Url.t);
  note : option string
}.
End CreateArgs.

(** Arguments of [update_contact]: [identifier] and the rest, which the
    source names [updates]. *)
Module UpdateArgs.
Record t := {
  identifier : string;
  name : option string;
  organization : option string;
  job_title : option string;
  note : option string;
  urls : option (list Url.t);
  emails : option (list string);
  phones : option (list string)
}.
End UpdateArgs.

(** Arguments of [get_recent_contacts]. *)
Module RecentArgs.
Record t := { days_back : option Z; type : option string; limit : option Z }.
End RecentArgs.

Module SearchHit.
Record t := { name : string; organization : string }.
End SearchHit.

Module SearchResponse.
Record t := { success : bool; count : nat; contacts : list SearchHit.t }.
End SearchResponse.

(** [{success: true, contact}] or [{success: false, message}]. *)
Module GetResponse.
Record t := { success : bool; message : option string; contact : option Contact.t }.
End GetResponse.

Module CreatedContact.
Record t := {
  name : string;
  organization : string;
  job_title : string;
  emails : list string;
  phones : list string;
  urls : list Url.t;
  note : string
}.
End CreatedContact.

Module CreateResponse.
Record t := {
  success : bool;
  message : string;
  contact_id : string;
  contact : CreatedContact.t
}.
End CreateResponse.

Module UpdateResponse.
Record t := { success : bool; message : string; updated_fields : list string }.
End UpdateResponse.

Module RecentHit.
Record t := { name : string; modification_date : string }.
End RecentHit.

Module RecentResponse.
Record t := {
  success : bool;
  type : string;
  days_back : Z;
  count : nat;
  contacts : list RecentHit.t
}.
End RecentResponse.

(** The [arguments] object of a tool call: every tool reads the fields
    it knows and leaves the others. *)
Module ToolArguments.
Record t := {
  query : option string;
  limit : option Z;
  identifier : option string;
  name : option string;
  organization : option string;
  job_title : option string;
  emails : option (list string);
  phones : option (list string);
  urls : option (list Url.t);
  note : option string;
  days_back : option Z;
  type : option string
}.
End ToolArguments.

(** What an operation hands to the tool handler. *)
Inductive ToolValue : Type :=
| SearchValue (r : SearchResponse.t)
| GetValue (r : GetResponse.t)
| CreateValue (r : CreateResponse.t)
| UpdateValue (r : UpdateResponse.t)
| RecentValue (r : RecentResponse.t).

Module ContentItem.
Record t := { type : string; text : string }.
End ContentItem.

(** The answer of a tool call; [isError] is set on the error path only. *)
Module ToolResponse.
Record t := { content : list ContentItem.t; isError : option bool }.
End ToolResponse.

(** A value that may be [undefined], spliced into a template literal. *)
Definition templateText (x : option string) : string :=
  match x with Some s => s | None => "undefined" end.

(** A destructuring default: [const { x = d } = args]. *)
Definition withDefault {A : Type} (d : A) (x : option A) : A :=
  match x with Some a => a | None => d end.

(** ** Script Builder: the script texts *)

(** A template literal spanning several lines. *)
Definition text (lines : list string) : string := JS.join nl lines.

(** A double-quoted literal of the script language around [s]. *)
Definition quoted (s : string) : string := dq ++ s ++ dq.

Definition tellContacts : string := "tell application " ++ quoted "Contacts".

(** The text that reports an unresolved identifier. *)
Definition contactNotFound : string := "Contact not found".

(** [searchContacts], line 288: the filter expression of the query path. *)
Definition searchQueryScript (query : string) : string :=
  tellContacts ++ " to return name of people whose name contains " ++ quoted query.

(** [searchContacts], lines 304-313: the bounded enumeration. *)
Definition searchAllScript (limit : Z) : string :=
  text [ tellContacts;
         "  set contactList to {}";
         "  set allPeople to people";
         "  repeat with i from 1 to " ++ JS.numberToString (Z.min limit 10);
         "    if i > (count of allPeople) then exit repeat";
         "    set aPerson to item i of allPeople";
         "    set end of contactList to name of aPerson";
         "  end repeat";
         "  return contactList";
         "end tell" ].

(** [getContact], lines 338-350. *)
Definition getContactScript (identifier : string) : string :=
  text [ tellContacts;
         "  try";
         "    set targetPerson to person id " ++ quoted identifier;
         "  on error";
         "    try";
         "      set targetPerson to person " ++ quoted identifier;
         "    on error";
         "      return " ++ quoted contactNotFound;
         "    end try";
         "  end try";
         "  ";
         "  return id of targetPerson & " ++ quoted "|"
           ++ " & name of targetPerson & " ++ quoted "|"
           ++ " & organization of targetPerson & " ++ quoted "|"
           ++ " & job title of targetPerson & " ++ quoted "|"
           ++ " & note of targetPerson";
         "end tell" ].

Definition targetPersonLine (contactId : string) : string :=
  "  set targetPerson to person id " ++ quoted contactId.

(** [getContact], lines 369-376. *)
Definition emailScript (contactId : string) : string :=
  text [ tellContacts;
         targetPersonLine contactId;
         "  set emailList to {}";
         "  repeat with anEmail in emails of targetPerson";
         "    set end of emailList to value of anEmail";
         "  end repeat";
         "  return emailList";
         "end tell" ].

(** [getContact], lines 385-392. *)
Definition phoneScript (contactId : string) : string :=
  text [ tellContacts;
         targetPersonLine contactId;
         "  set phoneList to {}";
         "  repeat with aPhone in phones of targetPerson";
         "    set end of phoneList to value of aPhone";
         "  end repeat";
         "  return phoneList";
         "end tell" ].

(** [getContact], lines 401-408. *)
Definition urlScript (contactId : string) : string :=
  text [ tellContacts;
         targetPersonLine contactId;
         "  set urlList to {}";
         "  repeat with aUrl in urls of targetPerson";
         "    set end of urlList to (label of aUrl & " ++ quoted ":" ++ " & value of aUrl)";
         "  end repeat";
         "  return urlList";
         "end tell" ].

(** The positional label of an email, lines 464 and 631. *)
Definition emailLabel (index : nat) : string :=
  if Nat.eqb index 0 then "home"
  else if Nat.eqb index 1 then "work"
  else "email" ++ JS.numberToString (Z.of_nat (index + 1)).

(** The positional label of a phone, lines 472 and 666. *)
Definition phoneLabel (index : nat) : string :=
  if Nat.eqb index 0 then "home"
  else if Nat.eqb index 1 then "work"
  else "phone" ++ JS.numberToString (Z.of_nat (index + 1)).

(** The properties record [{label:"l", value:"v"}] of an appended entry;
    both arguments are spliced as they are given. *)
Definition properties (lbl val : string) : string :=
  "{label:" ++ quoted lbl ++ ", value:" ++ quoted val ++ "}".

(** The name split of [createContact] and [updateContact]: first token
    and remainder of [name.trim().split(' ')]. *)
Definition nameParts (name : string) : list string := JS.split " " (JS.trim name).

Definition firstName (name : string) : string :=
  JS.orElse (nth_error (nameParts name) 0) EmptyString.

Definition lastName (name : string) : string :=
  if Nat.ltb 1 (List.length (nameParts name))
  then JS.join " " (skipn 1 (nameParts name))
  else EmptyString.

(** One conditional assignment of the creation script, lines 440-458. *)
Definition setIfNotEmpty (property val : string) : list string :=
  [ "        if " ++ quoted (escapeForAppleScript val) ++ " is not " ++ quoted EmptyString ++ " then";
    "          set " ++ property ++ " of newPerson to " ++ quoted (escapeForAppleScript val);
    "        end if" ].

(** [createContact], lines 436-459: the opening template. *)
Definition createHeader (name organization job_title note : string) : string :=
  text (List.concat
    [ [ EmptyString;
        "      " ++ tellContacts;
        "        set newPerson to make new person";
        "        " ];
      setIfNotEmpty "first name" (firstName name);
      [ "        " ];
      setIfNotEmpty "last name" (lastName name);
      [ "        " ];
      setIfNotEmpty "organization" organization;
      [ "        " ];
      setIfNotEmpty "job title" job_title;
      [ "        " ];
      setIfNotEmpty "note" note;
      [ "    " ] ]).

(** The line appended for one email, line 465. *)
Definition createEmailLine (email : string) (index : nat) : string :=
  nl ++ "        make new email at end of emails of newPerson with properties "
     ++ properties (emailLabel index) (escapeForAppleScript email).

(** The line appended for one phone, line 473. *)
Definition createPhoneLine (phone : string) (index : nat) : string :=
  nl ++ "        make new phone at end of phones of newPerson with properties "
     ++ properties (phoneLabel index) (escapeForAppleScript phone).

(** The line appended for one url, line 480. *)
Definition createUrlLine (url : Url.t) : string :=
  nl ++ "        make new url at end of urls of newPerson with properties "
     ++ properties (escapeForAppleScript (Url.label url))
                   (escapeForAppleScript (Url.value url)).

(** [createContact], lines 484-488: the closing template. *)
Definition createFooter : string :=
  text [ EmptyString;
         "        save";
         "        return id of newPerson";
         "      end tell";
         "    " ].

(** [createContact], lines 436-488: the whole script, built by appending
    to the local variable [script]. *)
Definition createScript (name organization job_title : string)
    (emails phones : list string) (urls : list Url.t) (note : string) : string :=
  let script := createHeader name organization job_title note in
  let script :=
    if Nat.ltb 0 (List.length emails)
    then JS.forEach (fun email index script => script ++ createEmailLine email index)
                    emails script
    else script in
  let script :=
    if Nat.ltb 0 (List.length phones)
    then JS.forEach (fun phone index script => script ++ createPhoneLine phone index)
                    phones script
    else script in
  let script :=
    if Nat.ltb 0 (List.length urls)
    then JS.forEach (fun url (_ : nat) script => script ++ createUrlLine url)
                    urls script
    else script in
  script ++ createFooter.

(** [updateContact], lines 524-529. *)
Definition nameScript (contactId name : string) : string :=
  text [ tellContacts;
         targetPersonLine contactId;
         "  set first name of targetPerson to " ++ quoted (escapeForAppleScript (firstName name));
         "  set last name of targetPerson to " ++ quoted (escapeForAppleScript (lastName name));
         "  save";
         "end tell" ].

(** [updateContact], lines 540-544. *)
Definition organizationScript (contactId organization : string) : string :=
  text [ tellContacts;
         targetPersonLine contactId;
         "  set organization of targetPerson to " ++ quoted (escapeForAppleScript organization);
         "  save";
         "end tell" ].

(** [updateContact], lines 554-558. *)
Definition jobTitleScript (contactId job_title : string) : string :=
  text [ tellContacts;
         targetPersonLine contactId;
         "  set job title of targetPerson to " ++ quoted (escapeForAppleScript job_title);
         "  save";
         "end tell" ].

(** [updateContact], lines 568-572. *)
Definition noteScript (contactId note : string) : string :=
  text [ tellContacts;
         targetPersonLine contactId;
         "  set note of targetPerson to " ++ quoted (escapeForAppleScript note);
         "  save";
         "end tell" ].

(** The script that empties one collection (lines 584-588, 618-622,
    653-657); [kind] is [url], [email] or [phone]. *)
Definition clearScript (kind contactId : string) : string :=
  text [ tellContacts;
         targetPersonLine contactId;
         "  delete every " ++ kind ++ " of targetPerson";
         "  save";
         "end tell" ].

Definition clearUrlScript : string -> string := clearScript "url".
Definition clearEmailScript : string -> string := clearScript "email".
Definition clearPhoneScript : string -> string := clearScript "phone".

(** The opening and closing of the three scripts that repopulate a
    collection (lines 593-594 and 601-603). *)
Definition addHeader (contactId : string) : string :=
  text [ tellContacts; targetPersonLine contactId ].

Definition addFooter : string := text [ EmptyString; "  save"; "end tell" ].

(** Lines 597-598. *)
Definition addUrlLine (url : Url.t) : string :=
  nl ++ "  make new url at end of urls of targetPerson with properties "
     ++ properties (escapeForAppleScript (Url.label url))
                   (escapeForAppleScript (Url.value url)).

(** Lines 632-633. *)
Definition addEmailLine (email : string) (index : nat) : string :=
  nl ++ "  make new email at end of emails of targetPerson with properties "
     ++ properties (emailLabel index) (escapeForAppleScript email).

(** Lines 667-668. *)
Definition addPhoneLine (phone : string) (index : nat) : string :=
  nl ++ "  make new phone at end of phones of targetPerson with properties "
     ++ properties (phoneLabel index) (escapeForAppleScript phone).

(** Lines 593-603. *)
Definition addUrlScript (contactId : string) (urls : list Url.t) : string :=
  let addUrlScript := addHeader contactId in
  let addUrlScript :=
    JS.forEach (fun url (_ : nat) script => script ++ addUrlLine url) urls addUrlScript in
  addUrlScript ++ addFooter.

(** Lines 627-638. *)
Definition addEmailScript (contactId : string) (emails : list string) : string :=
  let addEmailScript := addHeader contactId in
  let addEmailScript :=
    JS.forEach (fun email index script => script ++ addEmailLine email index)
               emails addEmailScript in
  addEmailScript ++ addFooter.

(** Lines 662-673. *)
Definition addPhoneScript (contactId : string) (phones : list string) : string :=
  let addPhoneScript := addHeader contactId in
  let addPhoneScript :=
    JS.forEach (fun phone index script => script ++ addPhoneLine phone index)
               phones addPhoneScript in
  addPhoneScript ++ addFooter.

(** [getRecentContacts], lines 695-704. *)
Definition recentScript (limit : Z) : string :=
  text [ tellContacts;
         "  set contactList to {}";
         "  set allPeople to people";
         "  repeat with i from 1 to " ++ JS.numberToString (Z.min limit 20);
         "    if i > (count of allPeople) then exit repeat";
         "    set aPerson to item i of allPeople";
         "    set end of contactList to (name of aPerson & " ++ quoted "###SPLIT###"
           ++ " & modification date of aPerson & " ++ quoted "###END###" ++ ")";
         "  end repeat";
         "  return contactList";
         "end tell" ].

(** ** Result Parser *)

(** [names.map(name => ({ name: name.trim(), organization: '' }))]. *)
Definition toHits (names : list string) : list SearchHit.t :=
  map (fun name => {| SearchHit.name := JS.trim name;
                      SearchHit.organization := EmptyString |}) names.

(** [result ? result.split(', ') : []], lines 378 and 394. *)
Definition parseList (result : string) : list string :=
  if JS.truthy result then JS.split ", " result else [].

(** One url entry, lines 412-413:
    [const [label, ...valueParts] = item.split(':')]. *)
Definition parseUrlEntry (item : string) : Url.t :=
  match JS.split ":" item with
  | [] => {| Url.label := JS.orElse None EmptyString;
             Url.value := JS.orElse (Some (JS.join ":" [])) EmptyString |}
  | label :: valueParts =>
      {| Url.label := JS.orElse (Some label) EmptyString;
         Url.value := JS.orElse (Some (JS.join ":" valueParts)) EmptyString |}
  end.

(** Lines 410-417. *)
Definition parseUrls (urlResult : string) : list Url.t :=
  if JS.truthy urlResult
  then map parseUrlEntry (JS.split ", " urlResult)
  else [].

(** [entry.replace(/^, /, '')], line 716. *)
Definition dropLeadingComma (entry : string) : string :=
  if JS.startsWith ", " entry then String.substring 2 (String.length entry - 2) entry
  else entry.

(** Lines 713-722. *)
Definition parseRecent (result : string) (limit : Z) : list RecentHit.t :=
  let entries :=
    filter (fun entry => JS.truthy (JS.trim entry)) (JS.split "###END###" result) in
  JS.slice0
    (map (fun entry =>
            let cleanEntry := dropLeadingComma entry in
            let parts := JS.split "###SPLIT###" cleanEntry in
            {| RecentHit.name := JS.orElse (nth_error parts 0) EmptyString;
               RecentHit.modification_date := JS.orElse (nth_error parts 1) EmptyString |})
         entries)
    limit.

(** ** Readings used to state the properties *)

(** The entries a list contributes to a script, one text per element,
    each with its position. *)
Fixpoint indexedFrom {A : Type} (from : nat) (line : A -> nat -> string)
    (l : list A) : list string :=
  match l with
  | [] => []
  | x :: l' => line x from :: indexedFrom (S from) line l'
  end.

Definition indexed {A : Type} (line : A -> nat -> string) (l : list A) : list string :=
  indexedFrom 0 line l.

(** How the script language reads back the body of a double-quoted
    literal: a backslash takes the next character with it. *)
Definition readEscaped (c : ascii) : ascii :=
  if Ascii.eqb c "n"%char then newline
  else if Ascii.eqb c "r"%char then creturn
  else if Ascii.eqb c "t"%char then tab
  else c.

Fixpoint readLiteral (body : string) : string :=
  match body with
  | EmptyString => EmptyString
  | String c rest =>
      if Ascii.eqb c backslash
      then match rest with
           | EmptyString => String c EmptyString
           | String d rest' => String (readEscaped d) (readLiteral rest')
           end
      else String c (readLiteral rest)
  end.

(** A text without the colon. *)
Definition colonFree (s : string) : bool := negb (JS.includes ":" s).

(** The line that opens the loop of an enumeration script. *)
Definition repeatLine (bound : Z) : string :=
  "  repeat with i from 1 to " ++ JS.numberToString bound ++ nl.

(** Field [i] of the flattened record [getContact] reads, lines 358-365:
    [parts[i] || ''] with [parts = result.split('|')]. *)
Definition recordField (result : string) (i : nat) : string :=
  JS.orElse (nth_error (JS.split "|" result) i) EmptyString.

(** The handler of the lookup script that answers with the not-found
    text instead of raising. *)
Definition notFoundHandler : string :=
  text [ "    on error";
         "      return " ++ quoted contactNotFound;
         "    end try" ].

(** [sep] does not occur in [a ++ tail] at a position inside [a]. *)
Fixpoint matchFree (sep a tail : string) : bool :=
  match a with
  | EmptyString => true
  | String _ a' => negb (JS.startsWith sep (a ++ tail)) && matchFree sep a' tail
  end.

(** A piece that a split at [sep] gives back whole when [sep] follows
    it: the first occurrence of [sep] in [a ++ sep] is the one at the
    end. *)
Definition freeBefore (sep a : string) : bool := matchFree sep a sep.

(** What the interpreter prints for the values the scripts return, read
    off the return expressions of the scripts in the source and off the
    splits the parsers apply to them. *)

(** A list of texts is printed with its elements separated by a comma
    and a space (the separator of lines 290, 316, 378, 394 and 411). *)
Definition renderList (items : list string) : string := JS.join ", " items.

(** The return expression of the lookup script, line 349. *)
Definition renderRecord (id name organization job_title note : string) : string :=
  id ++ "|" ++ name ++ "|" ++ organization ++ "|" ++ job_title ++ "|" ++ note.

(** The entry the url script builds for one url, line 405. *)
Definition renderUrl (url : Url.t) : string :=
  Url.label url ++ ":" ++ Url.value url.

(** The entry the recent-contacts script builds for one person, line 701. *)
Definition renderRecentBody (hit : RecentHit.t) : string :=
  RecentHit.name hit ++ "###SPLIT###" ++ RecentHit.modification_date hit.

Definition renderRecent (hits : list RecentHit.t) : string :=
  renderList (map (fun hit => renderRecentBody hit ++ "###END###") hits).

(** A url the url parser gives back: no colon in its label, no list
    separator in its entry. *)
Definition urlSafe (url : Url.t) : bool :=
  colonFree (Url.label url) && negb (JS.includes ", " (renderUrl url)).

(** A person the recent-contacts parser gives back: the end sentinel
    first occurs where the script puts it, also after the separator of
    the list, the field sentinel first occurs after the name, and the
    date holds no field sentinel. *)
Definition recentSafe (hit : RecentHit.t) : bool :=
  freeBefore "###END###" (", " ++ renderRecentBody hit)
  && freeBefore "###SPLIT###" (RecentHit.name hit)
  && negb (JS.includes "###SPLIT###" (RecentHit.modification_date hit)).

(** The pieces between the end sentinels of a printed list of people. *)
Definition recentPieces (hits : list RecentHit.t) : list string :=
  match hits with
  | [] => []
  | hit :: rest =>
      renderRecentBody hit :: map (fun h => ", " ++ renderRecentBody h) rest
  end.

(** Where a double-quoted literal of a script ends: outside a literal a
    double quote opens one; inside, a backslash takes the next character
    with it and a double quote closes the literal. *)
Inductive LexState : Type := InCode | InLiteral | AfterBackslash.

Definition lexStep (state : LexState) (c : ascii) : LexState :=
  match state with
  | InCode => if Ascii.eqb c dquote then InLiteral else InCode
  | InLiteral =>
      if Ascii.eqb c backslash then AfterBackslash
      else if Ascii.eqb c dquote then InCode
      else InLiteral
  | AfterBackslash => InLiteral
  end.

Fixpoint lex (state : LexState) (s : string) : LexState :=
  match s with
  | EmptyString => state
  | String c s' => lex (lexStep state c) s'
  end.

(** A text after which, spliced raw inside a literal, the reading is
    inside a literal again.  Only the state at the end of the text is
    tested: a text that closes the literal and opens another passes. *)
Definition literalSafe (s : string) : bool :=
  match lex InLiteral s with InLiteral => true | _ => false end.

(** A script all of whose literals are closed. *)
Definition wellQuoted (script : string) : bool :=
  match lex InCode script with InCode => true | _ => false end.

(** The bodies of the literals of a text, in order, as the same reading
    finds them: [cur] collects the body of the literal being read; a
    literal left open at the end of the text is not listed. *)
Fixpoint literalsFrom (state : LexState) (cur : string) (s : string) : list string :=
  match s with
  | EmptyString => []
  | String c s' =>
      match state with
      | InCode =>
          if Ascii.eqb c dquote then literalsFrom InLiteral EmptyString s'
          else literalsFrom InCode EmptyString s'
      | InLiteral =>
          if Ascii.eqb c backslash
          then literalsFrom AfterBackslash (cur ++ String c EmptyString) s'
          else if Ascii.eqb c dquote then cur :: literalsFrom InCode EmptyString s'
          else literalsFrom InLiteral (cur ++ String c EmptyString) s'
      | AfterBackslash => literalsFrom InLiteral (cur ++ String c EmptyString) s'
      end
  end.

Definition literals (script : string) : list string :=
  literalsFrom InCode EmptyString script.

(** A script piece read from code to code, with the literals it holds. *)
Definition reads (piece : string) (found : list string) : Prop :=
  literals piece = found /\ lex InCode piece = InCode.

(** A text with no double quote and no backslash. *)
Fixpoint plainText (s : string) : bool :=
  match s with
  | EmptyString => true
  | String c s' =>
      negb (Ascii.eqb c dquote) && negb (Ascii.eqb c backslash) && plainText s'
  end.

(** The literals a list contributes, element by element, each with its
    position. *)
Fixpoint entriesFrom {A : Type} (from : nat) (found : A -> nat -> list string)
    (l : list A) : list string :=
  match l with
  | [] => []
  | x :: l' => (found x from ++ entriesFrom (S from) found l')%list
  end.

(** The literals of one conditional assignment of the creation script:
    the escaped value, the empty literal it is compared with, and the
    escaped value again. *)
Definition scalarLiterals (val : string) : list string :=
  [ escapeForAppleScript val; EmptyString; escapeForAppleScript val ].

(** The literals the creation script is meant to hold, in order. *)
Definition createLiterals (name organization job_title : string)
    (emails phones : list string) (urls : list Url.t) (note : string) : list string :=
  ("Contacts"
   :: scalarLiterals (firstName name)
   ++ scalarLiterals (lastName name)
   ++ scalarLiterals organization
   ++ scalarLiterals job_title
   ++ scalarLiterals note
   ++ entriesFrom 0 (fun email index => [emailLabel index; escapeForAppleScript email])
                  emails
   ++ entriesFrom 0 (fun phone index => [phoneLabel index; escapeForAppleScript phone])
                  phones
   ++ entriesFrom 0 (fun url (_ : nat) =>
                       [ escapeForAppleScript (Url.label url);
                         escapeForAppleScript (Url.value url) ])
                  urls)%list.

(** ** Script Executor and the effects of an operation *)

(** What one run of the interpreter gives: its standard output when it
    exits with status zero, or the text of the error [execSync] throws
    when it exits non-zero or cannot be started. *)
Inductive Outcome : Type :=
| Exited (stdout : string)
| Failed (error : string).

(** What an operation does to the outside: it runs the interpreter on a
    script, and it writes to the error console. *)
Inductive Event : Type :=
| Osascript (script : string) (outcome : Outcome)
| ConsoleError (prefix : string) (error : string).

(** A value of a computation, or the message of the [Error] thrown. *)
Inductive Res (A : Type) : Type :=
| Ret (a : A)
| Throw (message : string).
Arguments Ret {A} a.
Arguments Throw {A} message.

(** [String(error)] of a thrown [Error], as a template literal prints it. *)
Definition errorToString (message : string) : string := "Error: " ++ message.

(** The contact store and the interpreter process are outside the
    program: [World] is whatever state they have, and [osascript] is one
    synchronous run of the interpreter on a script text. *)
Class Interpreter : Type := {
  World : Type;
  osascript : string -> World -> Outcome * World
}.

Section Bridge.

Context {interpreter : Interpreter}.

Record State : Type := { world : World; events : list Event }.

Definition emit (e : Event) (st : State) : State :=
  {| world := world st; events := (events st ++ [e])%list |}.

(** Computations that read and change the outside and may throw; what
    was done before a throw stays done. *)
Definition M (A : Type) : Type := State -> Res A * State.

Definition ret {A : Type} (a : A) : M A := fun st => (Ret a, st).

Definition throw {A : Type} (message : string) : M A := fun st => (Throw message, st).

Definition bind {A B : Type} (c : M A) (k : A -> M B) : M B :=
  fun st =>
    match c st with
    | (Ret a, st') => k a st'
    | (Throw message, st') => (Throw message, st')
    end.

(** [try { c } catch (error) { handler }]. *)
Definition tryCatch {A : Type} (c : M A) (handler : string -> M A) : M A :=
  fun st =>
    match c st with
    | (Ret a, st') => (Ret a, st')
    | (Throw message, st') => handler message st'
    end.

(** [console.error(prefix, error)]. *)
Definition consoleError (prefix error : string) : M unit :=
  fun st => (Ret tt, emit (ConsoleError prefix error) st).

Notation "x <- c ;; k" := (bind c (fun x => k))
  (at level 61, c at next level, right associativity).
Notation "c ;;; k" := (bind c (fun _ => k))
  (at level 61, right associativity).

(** [executeAppleScript], lines 269-280. *)
Definition executeAppleScript (script : string) : M string :=
  fun st =>
    match osascript script (world st) with
    | (Exited stdout, w) =>
        (Ret (JS.trim stdout),
         emit (Osascript script (Exited stdout)) {| world := w; events := events st |})
    | (Failed error, w) =>
        (Throw ("AppleScript execution failed: " ++ error),
         emit (Osascript script (Failed error)) {| world := w; events := events st |})
    end.

(** ** Operation facade *)

(** [searchContacts], lines 282-332.  The test [if (query)] takes a
    missing query and the empty string alike to the enumeration. *)
Definition searchContacts (args : SearchArgs.t) : M SearchResponse.t :=
  let query := SearchArgs.query args in
  let limit := withDefault 20%Z (SearchArgs.limit args) in
  tryCatch
    (if JS.truthy (withDefault EmptyString query)
     then
       let script := searchQueryScript (withDefault EmptyString query) in
       result <- executeAppleScript script ;;
       let names := JS.slice0 (JS.split ", " result) limit in
       let contacts := toHits names in
       ret {| SearchResponse.success := true;
              SearchResponse.count := List.length contacts;
              SearchResponse.contacts := contacts |}
     else
       let script := searchAllScript limit in
       result <- executeAppleScript script ;;
       let names :=
         if JS.truthy result then JS.slice0 (JS.split ", " result) limit else [] in
       let contacts := toHits names in
       ret {| SearchResponse.success := true;
              SearchResponse.count := List.length contacts;
              SearchResponse.contacts := contacts |})
    (fun error => throw ("Search failed: " ++ errorToString error)).

(** [getContact], lines 334-426. *)
Definition getContact (identifier : string) : M GetResponse.t :=
  let script := getContactScript identifier in
  tryCatch
    (result <- executeAppleScript script ;;
     if String.eqb result contactNotFound
     then ret {| GetResponse.success := false;
                 GetResponse.message := Some contactNotFound;
                 GetResponse.contact := None |}
     else
       let parts := JS.split "|" result in
       let id := JS.orElse (nth_error parts 0) EmptyString in
       let name := JS.orElse (nth_error parts 1) EmptyString in
       let organization := JS.orElse (nth_error parts 2) EmptyString in
       let job_title := JS.orElse (nth_error parts 3) EmptyString in
       let note := JS.orElse (nth_error parts 4) EmptyString in
       emails <- tryCatch
                   (emailResult <- executeAppleScript (emailScript id) ;;
                    ret (parseList emailResult))
                   (fun _ => ret []) ;;
       phones <- tryCatch
                   (phoneResult <- executeAppleScript (phoneScript id) ;;
                    ret (parseList phoneResult))
                   (fun _ => ret []) ;;
       urls <- tryCatch
                 (urlResult <- executeAppleScript (urlScript id) ;;
                  ret (parseUrls urlResult))
                 (fun _ => ret []) ;;
       ret {| GetResponse.success := true;
              GetResponse.message := None;
              GetResponse.contact :=
                Some {| Contact.id := id;
                        Contact.name := name;
                        Contact.organization := organization;
                        Contact.job_title := job_title;
                        Contact.note := note;
                        Contact.emails := emails;
                        Contact.phones := phones;
                        Contact.urls := urls |} |})
    (fun error => throw ("Get contact failed: " ++ errorToString error)).

(** [createContact], lines 428-502. *)
Definition createContact (args : CreateArgs.t) : M CreateResponse.t :=
  let name := CreateArgs.name args in
  let organization := withDefault EmptyString (CreateArgs.organization args) in
  let job_title := withDefault EmptyString (CreateArgs.job_title args) in
  let emails := withDefault [] (CreateArgs.emails args) in
  let phones := withDefault [] (CreateArgs.phones args) in
  let urls := withDefault [] (CreateArgs.urls args) in
  let note := withDefault EmptyString (CreateArgs.note args) in
  let script := createScript name organization job_title emails phones urls note in
  tryCatch
    (contactId <- executeAppleScript script ;;
     ret {| CreateResponse.success := true;
            CreateResponse.message := "Created contact: " ++ name;
            CreateResponse.contact_id := contactId;
            CreateResponse.contact :=
              {| CreatedContact.name := name;
                 CreatedContact.organization := organization;
                 CreatedContact.job_title := job_title;
                 CreatedContact.emails := emails;
                 CreatedContact.phones := phones;
                 CreatedContact.urls := urls;
                 CreatedContact.note := note |} |})
    (fun error => throw ("Create contact failed: " ++ errorToString error)).

(** The seven blocks of [updateContact], in the order of the source.
    Each takes the array [updatedFields] as it stands and gives it back,
    with the name of its field pushed when its scripts went through. *)

(** Lines 517-535. *)
Definition updateName (contactId : string) (updates : UpdateArgs.t)
    (updatedFields : list string) : M (list string) :=
  match UpdateArgs.name updates with
  | Some name =>
      tryCatch
        (executeAppleScript (nameScript contactId name) ;;;
         ret (updatedFields ++ ["name"])%list)
        (fun error =>
           consoleError "Failed to update name:" error ;;; ret updatedFields)
  | None => ret updatedFields
  end.

(** Lines 538-550. *)
Definition updateOrganization (contactId : string) (updates : UpdateArgs.t)
    (updatedFields : list string) : M (list string) :=
  match UpdateArgs.organization updates with
  | Some organization =>
      tryCatch
        (executeAppleScript (organizationScript contactId organization) ;;;
         ret (updatedFields ++ ["organization"])%list)
        (fun error =>
           consoleError "Failed to update organization:" error ;;; ret updatedFields)
  | None => ret updatedFields
  end.

(** Lines 552-564. *)
Definition updateJobTitle (contactId : string) (updates : UpdateArgs.t)
    (updatedFields : list string) : M (list string) :=
  match UpdateArgs.job_title updates with
  | Some job_title =>
      tryCatch
        (executeAppleScript (jobTitleScript contactId job_title) ;;;
         ret (updatedFields ++ ["job_title"])%list)
        (fun error =>
           consoleError "Failed to update job title:" error ;;; ret updatedFields)
  | None => ret updatedFields
  end.

(** Lines 566-578. *)
Definition updateNote (contactId : string) (updates : UpdateArgs.t)
    (updatedFields : list string) : M (list string) :=
  match UpdateArgs.note updates with
  | Some note =>
      tryCatch
        (executeAppleScript (noteScript contactId note) ;;;
         ret (updatedFields ++ ["note"])%list)
        (fun error =>
           consoleError "Failed to update note:" error ;;; ret updatedFields)
  | None => ret updatedFields
  end.

(** Lines 581-612. *)
Definition updateUrls (contactId : string) (updates : UpdateArgs.t)
    (updatedFields : list string) : M (list string) :=
  match UpdateArgs.urls updates with
  | Some urls =>
      tryCatch
        (executeAppleScript (clearUrlScript contactId) ;;;
         (if Nat.ltb 0 (List.length urls)
          then executeAppleScript (addUrlScript contactId urls) ;;; ret tt
          else ret tt) ;;;
         ret (updatedFields ++ ["urls"])%list)
        (fun error =>
           consoleError "Failed to update URLs:" error ;;; ret updatedFields)
  | None => ret updatedFields
  end.

(** Lines 615-647. *)
Definition updateEmails (contactId : string) (updates : UpdateArgs.t)
    (updatedFields : list string) : M (list string) :=
  match UpdateArgs.emails updates with
  | Some emails =>
      tryCatch
        (executeAppleScript (clearEmailScript contactId) ;;;
         (if Nat.ltb 0 (List.length emails)
          then executeAppleScript (addEmailScript contactId emails) ;;; ret tt
          else ret tt) ;;;
         ret (updatedFields ++ ["emails"])%list)
        (fun error =>
           consoleError "Failed to update emails:" error ;;; ret updatedFields)
  | None => ret updatedFields
  end.

(** Lines 650-682. *)
Definition updatePhones (contactId : string) (updates : UpdateArgs.t)
    (updatedFields : list string) : M (list string) :=
  match UpdateArgs.phones updates with
  | Some phones =>
      tryCatch
        (executeAppleScript (clearPhoneScript contactId) ;;;
         (if Nat.ltb 0 (List.length phones)
          then executeAppleScript (addPhoneScript contactId phones) ;;; ret tt
          else ret tt) ;;;
         ret (updatedFields ++ ["phones"])%list)
        (fun error =>
           consoleError "Failed to update phones:" error ;;; ret updatedFields)
  | None => ret updatedFields
  end.

(** [updateContact], lines 504-689.  Reading [.id] of a missing
    [contact] would throw a [TypeError]. *)
Definition updateContact (args : UpdateArgs.t) : M UpdateResponse.t :=
  let identifier := UpdateArgs.identifier args in
  let updates := args in
  existingContact <- getContact identifier ;;
  if negb (GetResponse.success existingContact)
  then throw "Contact not found"
  else
    match GetResponse.contact existingContact with
    | None => throw "Cannot read properties of undefined (reading 'id')"
    | Some contact =>
        let contactId := Contact.id contact in
        let updatedFields := [] in
        updatedFields <- updateName contactId updates updatedFields ;;
        updatedFields <- updateOrganization contactId updates updatedFields ;;
        updatedFields <- updateJobTitle contactId updates updatedFields ;;
        updatedFields <- updateNote contactId updates updatedFields ;;
        updatedFields <- updateUrls contactId updates updatedFields ;;
        updatedFields <- updateEmails contactId updates updatedFields ;;
        updatedFields <- updatePhones contactId updates updatedFields ;;
        ret {| UpdateResponse.success := true;
               UpdateResponse.message := "Updated contact: " ++ identifier;
               UpdateResponse.updated_fields := updatedFields |}
    end.

(** [getRecentContacts], lines 691-734. *)
Definition getRecentContacts (args : RecentArgs.t) : M RecentResponse.t :=
  let days_back := withDefault 30%Z (RecentArgs.days_back args) in
  let type := withDefault "modified" (RecentArgs.type args) in
  let limit := withDefault 20%Z (RecentArgs.limit args) in
  let script := recentScript limit in
  tryCatch
    (result <- executeAppleScript script ;;
     if negb (JS.truthy result)
     then ret {| RecentResponse.success := true;
                 RecentResponse.type := type;
                 RecentResponse.days_back := days_back;
                 RecentResponse.count := 0;
                 RecentResponse.contacts := [] |}
     else
       let contacts := parseRecent result limit in
       ret {| RecentResponse.success := true;
              RecentResponse.type := type;
              RecentResponse.days_back := days_back;
              RecentResponse.count := List.length contacts;
              RecentResponse.contacts := contacts |})
    (fun error => throw ("Get recent contacts failed: " ++ errorToString error)).

(** ** The tool handler *)

(** The [switch] of the call handler, lines 215-233.  [createContact]
    reads [name.trim()] before its [try], which throws a [TypeError] on
    a missing name; the other operations only splice a missing
    identifier into a template. *)
Definition dispatch (name : string) (args : ToolArguments.t) : M ToolValue :=
  if String.eqb name "search_contacts" then
    r <- searchContacts {| SearchArgs.query := ToolArguments.query args;
                           SearchArgs.limit := ToolArguments.limit args |} ;;
    ret (SearchValue r)
  else if String.eqb name "get_contact" then
    r <- getContact (templateText (ToolArguments.identifier args)) ;;
    ret (GetValue r)
  else if String.eqb name "create_contact" then
    match ToolArguments.name args with
    | None => throw "Cannot read properties of undefined (reading 'trim')"
    | Some contactName =>
        r <- createContact
               {| CreateArgs.name := contactName;
                  CreateArgs.organization := ToolArguments.organization args;
                  CreateArgs.job_title := ToolArguments.job_title args;
                  CreateArgs.emails := ToolArguments.emails args;
                  CreateArgs.phones := ToolArguments.phones args;
                  CreateArgs.urls := ToolArguments.urls args;
                  CreateArgs.note := ToolArguments.note args |} ;;
        ret (CreateValue r)
    end
  else if String.eqb name "update_contact" then
    r <- updateContact
           {| UpdateArgs.identifier := templateText (ToolArguments.identifier args);
              UpdateArgs.name := ToolArguments.name args;
              UpdateArgs.organization := ToolArguments.organization args;
              UpdateArgs.job_title := ToolArguments.job_title args;
              UpdateArgs.note := ToolArguments.note args;
              UpdateArgs.urls := ToolArguments.urls args;
              UpdateArgs.emails := ToolArguments.emails args;
              UpdateArgs.phones := ToolArguments.phones args |} ;;
    ret (UpdateValue r)
  else if String.eqb name "get_recent_contacts" then
    r <- getRecentContacts
           {| RecentArgs.days_back := ToolArguments.days_back args;
              RecentArgs.type := ToolArguments.type args;
              RecentArgs.limit := ToolArguments.limit args |} ;;
    ret (RecentValue r)
  else throw ("Unknown tool: " ++ name).

(** The call handler, lines 209-255.  [stringify] stands for
    [JSON.stringify(result, null, 2)]. *)
Definition handleCallTool (stringify : ToolValue -> string) (name : string)
    (args : ToolArguments.t) : M ToolResponse.t :=
  tryCatch
    (result <- dispatch name args ;;
     ret {| ToolResponse.content :=
              [ {| ContentItem.type := "text";
                   ContentItem.text := stringify result |} ];
            ToolResponse.isError := None |})
    (fun error =>
       consoleError ("Error executing tool " ++ name ++ ":") error ;;;
       ret {| ToolResponse.content :=
                [ {| ContentItem.type := "text";
                     ContentItem.text := "Error: " ++ error |} ];
              ToolResponse.isError := Some true |}).

(** ** The update sequence as the specification words it

    Resolve the record by a fetch and fail fast when it does not
    resolve; then, for each field present in the request and in a fixed
    order, run the scripts of its mutation one after the other, collect
    the name of the field when they all went through, and write the
    failure to the console when one did not; give back success with the
    names collected. *)

Inductive Field : Type :=
| FName | FOrganization | FJobTitle | FNote | FUrls | FEmails | FPhones.

Definition fieldOrder : list Field :=
  [FName; FOrganization; FJobTitle; FNote; FUrls; FEmails; FPhones].

Definition fieldName (f : Field) : string :=
  match f with
  | FName => "name"
  | FOrganization => "organization"
  | FJobTitle => "job_title"
  | FNote => "note"
  | FUrls => "urls"
  | FEmails => "emails"
  | FPhones => "phones"
  end.

Definition failurePrefix (f : Field) : string :=
  match f with
  | FName => "Failed to update name:"
  | FOrganization => "Failed to update organization:"
  | FJobTitle => "Failed to update job title:"
  | FNote => "Failed to update note:"
  | FUrls => "Failed to update URLs:"
  | FEmails => "Failed to update emails:"
  | FPhones => "Failed to update phones:"
  end.

(** Clear, then append when there is something to append. *)
Definition clearThenAppend {A : Type} (clear : string) (add : list A -> string)
    (entries : list A) : list string :=
  clear :: match entries with [] => [] | _ :: _ => [add entries] end.

(** The scripts of the mutation of a field, [None] when the request
    leaves the field out. *)
Definition mutationScripts (contactId : string) (updates : UpdateArgs.t)
    (f : Field) : option (list string) :=
  match f with
  | FName =>
      option_map (fun v => [nameScript contactId v]) (UpdateArgs.name updates)
  | FOrganization =>
      option_map (fun v => [organizationScript contactId v])
                 (UpdateArgs.organization updates)
  | FJobTitle =>
      option_map (fun v => [jobTitleScript contactId v]) (UpdateArgs.job_title updates)
  | FNote =>
      option_map (fun v => [noteScript contactId v]) (UpdateArgs.note updates)
  | FUrls =>
      option_map (clearThenAppend (clearUrlScript contactId) (addUrlScript contactId))
                 (UpdateArgs.urls updates)
  | FEmails =>
      option_map (clearThenAppend (clearEmailScript contactId) (addEmailScript contactId))
                 (UpdateArgs.emails updates)
  | FPhones =>
      option_map (clearThenAppend (clearPhoneScript contactId) (addPhoneScript contactId))
                 (UpdateArgs.phones updates)
  end.

(** Run scripts in order; the first failure ends the run. *)
Fixpoint runScripts (scripts : list string) : M unit :=
  match scripts with
  | [] => ret tt
  | script :: rest => executeAppleScript script ;;; runScripts rest
  end.

(** One field of the sequence: success collects, failure is logged and
    never thrown, an absent field does nothing. *)
Definition applyField (contactId : string) (updates : UpdateArgs.t)
    (f : Field) (collected : list string) : M (list string) :=
  match mutationScripts contactId updates f with
  | None => ret collected
  | Some scripts =>
      fun st =>
        match runScripts scripts st with
        | (Ret _, st') => (Ret (collected ++ [fieldName f])%list, st')
        | (Throw error, st') =>
            (Ret collected, emit (ConsoleError (failurePrefix f) error) st')
        end
  end.

Fixpoint applyFields (contactId : string) (updates : UpdateArgs.t)
    (fields : list Field) (collected : list string) : M (list string) :=
  match fields with
  | [] => ret collected
  | f :: rest =>
      collected' <- applyField contactId updates f collected ;;
      applyFields contactId updates rest collected'
  end.

(** The replacement of a whole collection as the specification words
    it: a field left out of the request runs nothing; a field supplied
    first deletes every existing entry, and only when that went through
    appends the supplied entries, if there are any. *)
Definition replaceCollection {A : Type} (clear : string) (add : list A -> string)
    (name prefix : string) (supplied : option (list A))
    (collected : list string) : M (list string) :=
  fun st =>
    match supplied with
    | None => (Ret collected, st)
    | Some entries =>
        match executeAppleScript clear st with
        | (Throw error, st1) => (Ret collected, emit (ConsoleError prefix error) st1)
        | (Ret _, st1) =>
            match entries with
            | [] => (Ret (collected ++ [name])%list, st1)
            | _ :: _ =>
                match executeAppleScript (add entries) st1 with
                | (Ret _, st2) => (Ret (collected ++ [name])%list, st2)
                | (Throw error, st2) =>
                    (Ret collected, emit (ConsoleError prefix error) st2)
                end
            end
        end
    end.

(** What a secondary list script contributes to a fetched record. *)
Definition listOrEmpty (parse : string -> list string) (o : Outcome) : list string :=
  match o with
  | Exited stdout => parse (JS.trim stdout)
  | Failed _ => []
  end.

Definition urlsOrEmpty (o : Outcome) : list Url.t :=
  match o with
  | Exited stdout => parseUrls (JS.trim stdout)
  | Failed _ => []
  end.

(** [x !== undefined]. *)
Definition isDefined {A : Type} (x : option A) : bool :=
  match x with Some _ => true | None => false end.

(** Whether the request holds the field ([updates.field !== undefined]). *)
Definition requested (updates : UpdateArgs.t) (f : Field) : bool :=
  match f with
  | FName => isDefined (UpdateArgs.name updates)
  | FOrganization => isDefined (UpdateArgs.organization updates)
  | FJobTitle => isDefined (UpdateArgs.job_title updates)
  | FNote => isDefined (UpdateArgs.note updates)
  | FUrls => isDefined (UpdateArgs.urls updates)
  | FEmails => isDefined (UpdateArgs.emails updates)
  | FPhones => isDefined (UpdateArgs.phones updates)
  end.

End Bridge.

(** ** Sample interpreters and requests *)

(** A scripted interpreter, to run the operations on concrete replies:
    the outcome is that of the first rule whose key occurs in the script;
    it has no state of its own. *)
Definition scripted (rules : list (string * Outcome)) (otherwise : Outcome)
    (script : string) (w : unit) : Outcome * unit :=
  (match find (fun rule => JS.includes (fst rule) script) rules with
   | Some rule => snd rule
   | None => otherwise
   end, w).

Definition scriptedInterpreter (rules : list (string * Outcome))
    (otherwise : Outcome) : Interpreter :=
  {| World := unit; osascript := scripted rules otherwise |}.

(** The state before anything ran. *)
Definition initial (interpreter : Interpreter) (w : World) : State :=
  {| world := w; events := [] |}.

(** The state reached after the events [evs]. *)
Definition reached (interpreter : Interpreter) (w : World) (evs : list Event) : State :=
  {| world := w; events := evs |}.

(** An interpreter that resolves nothing. *)
Definition nothingFound : Interpreter :=
  scriptedInterpreter [] (Exited (contactNotFound ++ nl)).

(** An interpreter that refuses a script in which three double quotes
    follow one another, and otherwise resolves nothing. *)
Definition refusesTripleQuote : Interpreter :=
  scriptedInterpreter
    [ (dq ++ dq ++ dq, Failed "Error: Command failed: osascript") ]
    (Exited (contactNotFound ++ nl)).

(** An interpreter that prints an empty line whatever it is given. *)
Definition silent : Interpreter := scriptedInterpreter [] (Exited nl).

(** An interpreter that knows one contact; its email and url list
    scripts fail, and so does every attempt to set a note. *)
Definition adaOnly : Interpreter :=
  scriptedInterpreter
    [ ("return id of targetPerson",
       Exited ("ID1|Ada Lovelace|Analytical Engines||" ++ nl));
      ("return emailList", Failed "Error: Command failed: osascript");
      ("return phoneList", Exited ("555-0100, 555-0101" ++ nl));
      ("return urlList", Failed "Error: Command failed: osascript");
      ("set note of", Failed "Error: Command failed: osascript") ]
    (Exited nl).

(** [update(id, {organization, note})]. *)
Definition organizationAndNote : UpdateArgs.t :=
  {| UpdateArgs.identifier := "ID1";
     UpdateArgs.name := None;
     UpdateArgs.organization := Some "X";
     UpdateArgs.job_title := None;
     UpdateArgs.note := Some "met in London";
     UpdateArgs.urls := None;
     UpdateArgs.emails := None;
     UpdateArgs.phones := None |}.

(** A tool call that names a contact and nothing else. *)
Definition onlyIdentifier (identifier : string) : ToolArguments.t :=
  {| ToolArguments.query := None;
     ToolArguments.limit := None;
     ToolArguments.identifier := Some identifier;
     ToolArguments.name := None;
     ToolArguments.organization := None;
     ToolArguments.job_title := None;
     ToolArguments.emails := None;
     ToolArguments.phones := None;
     ToolArguments.urls := None;
     ToolArguments.note := None;
     ToolArguments.days_back := None;
     ToolArguments.type := None |}.

(** Two people as the recent-contacts script prints them; the dates hold
    the separator of the list. *)
Definition twoPeople : list RecentHit.t :=
  [ {| RecentHit.name := "Ada Lovelace";
       RecentHit.modification_date := "Monday, November 2, 2026 at 10:00:00" |};
    {| RecentHit.name := "Grace Hopper";
       RecentHit.modification_date := "Sunday, November 1, 2026 at 09:30:00" |} ].

Definition twoUrls : list Url.t :=
  [ {| Url.label := "LinkedIn"; Url.value := "https://linkedin.com/in/ada" |};
    {| Url.label := "GitHub"; Url.value := "https://github.com/ada:443" |} ].

(** * Properties *)

Section Properties.

Context {interpreter : Interpreter}.


(** ** Strings *)

Lemma append_empty_r (s : string) : s ++ EmptyString = s.
Proof. induction s as [|c s IH]; simpl; [reflexivity | now rewrite IH]. Qed.

Lemma append_assoc (a b c : string) : (a ++ b) ++ c = a ++ (b ++ c).
Proof. induction a as [|x a IH]; simpl; [reflexivity | now rewrite IH]. Qed.

Lemma length_append (a b : string) :
  String.length (a ++ b) = String.length a + String.length b.
Proof. induction a as [|x a IH]; simpl; [reflexivity | now rewrite IH]. Qed.

Lemma concat_empty_cons (a : string) (l : list string) :
  String.concat EmptyString (a :: l) = a ++ String.concat EmptyString l.
Proof.
  destruct l as [|b l]; simpl; [now rewrite append_empty_r | reflexivity].
Qed.

Lemma replaceAll_app (c : ascii) (r a b : string) :
  JS.replaceAll c r (a ++ b) = JS.replaceAll c r a ++ JS.replaceAll c r b.
Proof.
  induction a as [|x a IH]; simpl; [reflexivity |].
  destruct (Ascii.eqb x c); rewrite IH; [now rewrite append_assoc | reflexivity].
Qed.

(** A global single-character [replace] is the substitution of the
    specification. *)
Lemma replaceAll_substitute (c : ascii) (r s : string) :
  JS.replaceAll c r s = EscaperSpec.substitute c r s.
Proof.
  unfold EscaperSpec.substitute.
  induction s as [|x s IH]; [reflexivity |].
  cbn [JS.replaceAll list_ascii_of_string map].
  rewrite concat_empty_cons, <- IH.
  destruct (Ascii.eqb x c); reflexivity.
Qed.

(** ** Script Escaper *)

(** The five chained replacements write, character by character, what a
    single pass would: escaping the backslash first keeps the later
    replacements from touching a backslash they did not write. *)
Lemma escapeForAppleScript_one_pass (s : string) :
  escapeForAppleScript s = escapeOnePass s.
Proof.
  unfold escapeForAppleScript.
  induction s as [|c s IH]; [reflexivity |].
  cbn [escapeOnePass JS.replaceAll]. rewrite <- IH. unfold escapeChar.
  destruct (Ascii.eqb c backslash) eqn:Eb.
  { rewrite !replaceAll_app. reflexivity. }
  cbn [JS.replaceAll]. destruct (Ascii.eqb c dquote) eqn:Eq.
  { rewrite !replaceAll_app. reflexivity. }
  cbn [JS.replaceAll]. destruct (Ascii.eqb c newline) eqn:En.
  { rewrite !replaceAll_app. reflexivity. }
  cbn [JS.replaceAll]. destruct (Ascii.eqb c creturn) eqn:Er.
  { rewrite !replaceAll_app. reflexivity. }
  cbn [JS.replaceAll]. destruct (Ascii.eqb c tab) eqn:Et; reflexivity.
Qed.

Lemma readLiteral_escapeOnePass (s : string) : readLiteral (escapeOnePass s) = s.
Proof.
  induction s as [|c s IH]; [reflexivity |].
  cbn [escapeOnePass]. unfold escapeChar.
  destruct (Ascii.eqb c backslash) eqn:Eb.
  { apply Ascii.eqb_eq in Eb. subst c. cbn. now rewrite IH. }
  destruct (Ascii.eqb c dquote) eqn:Eq.
  { apply Ascii.eqb_eq in Eq. subst c. cbn. now rewrite IH. }
  destruct (Ascii.eqb c newline) eqn:En.
  { apply Ascii.eqb_eq in En. subst c. cbn. now rewrite IH. }
  destruct (Ascii.eqb c creturn) eqn:Er.
  { apply Ascii.eqb_eq in Er. subst c. cbn. now rewrite IH. }
  destruct (Ascii.eqb c tab) eqn:Et.
  { apply Ascii.eqb_eq in Et. subst c. cbn. now rewrite IH. }
  cbn [append readLiteral]. rewrite Eb, IH. reflexivity.
Qed.

(** The escaper loses nothing: the literal it writes reads back as the
    text it was given. *)
Lemma readLiteral_escapeForAppleScript (s : string) :
  readLiteral (escapeForAppleScript s) = s.
Proof. rewrite escapeForAppleScript_one_pass. apply readLiteral_escapeOnePass. Qed.

Lemma escapeForAppleScript_inj (a b : string) :
  escapeForAppleScript a = escapeForAppleScript b -> a = b.
Proof.
  intros H. rewrite <- (readLiteral_escapeForAppleScript a), H.
  apply readLiteral_escapeForAppleScript.
Qed.

(** C1.  For every input string, the escaper gives the result of the
    substitutions of the specification applied in their order: backslash,
    then double quote, then newline, carriage return and tab.  It is a
    total function; on the empty string, on a string of control
    characters only and on a string of backslashes it gives the values
    shown. *)
Theorem escapeForAppleScript_spec :
  (forall s : string, escapeForAppleScript s = EscaperSpec.escape s)
  /\ escapeForAppleScript EmptyString = EmptyString
  /\ escapeForAppleScript (String newline (String creturn (String tab EmptyString)))
     = bs ++ "n" ++ bs ++ "r" ++ bs ++ "t"
  /\ escapeForAppleScript (bs ++ bs) = bs ++ bs ++ bs ++ bs.
Proof.
  split; [| repeat split].
  intros s. unfold escapeForAppleScript, EscaperSpec.escape, EscaperSpec.substitutions.
  cbn [fold_left fst snd]. now rewrite !replaceAll_substitute.
Qed.

(** ** [split] and [join] *)

Lemma splitFrom_skip (sep q t cur : string) :
  JS.splitFrom sep (String.length q) cur (q ++ t) = JS.splitFrom sep 0 cur t.
Proof. induction q as [|x q IH]; simpl; [reflexivity | exact IH]. Qed.

Lemma startsWith_prefix (p s : string) :
  JS.startsWith p s = true -> exists t, s = p ++ t.
Proof.
  revert s. induction p as [|a p IH]; intros s H.
  - now exists s.
  - destruct s as [|b s]; [discriminate |]. simpl in H.
    apply andb_prop in H as [Hab Hps]. apply Ascii.eqb_eq in Hab. subst b.
    destruct (IH s Hps) as [t ->]. now exists t.
Qed.

Lemma splitFrom_not_nil (sep : string) (skip : nat) (cur s : string) :
  JS.splitFrom sep skip cur s <> [].
Proof.
  revert skip cur. induction s as [|x s IH]; intros skip cur; simpl; [discriminate |].
  destruct skip; [| apply IH].
  destruct (JS.startsWith sep (String x s)); [discriminate | apply IH].
Qed.

Lemma join_cons (sep p : string) (rest : list string) :
  rest <> [] -> JS.join sep (p :: rest) = p ++ sep ++ JS.join sep rest.
Proof. destruct rest; [congruence | reflexivity]. Qed.

Lemma join_splitFrom (sep : string) (n : nat) :
  sep <> EmptyString ->
  forall s cur, String.length s <= n ->
    JS.join sep (JS.splitFrom sep 0 cur s) = cur ++ s.
Proof.
  intros Hsep. induction n as [|n IH]; intros s cur Hlen.
  - destruct s; [| simpl in Hlen; lia]. simpl. now rewrite append_empty_r.
  - destruct s as [|x s]; [simpl; now rewrite append_empty_r |].
    cbn [JS.splitFrom]. destruct (JS.startsWith sep (String x s)) eqn:Hst.
    + destruct (startsWith_prefix _ _ Hst) as [t Ht].
      destruct sep as [|y sep']; [congruence |].
      simpl in Ht. injection Ht as -> ->.
      cbn [String.length]. rewrite Nat.sub_1_r. cbn [Nat.pred].
      rewrite splitFrom_skip, join_cons by apply splitFrom_not_nil.
      rewrite IH.
      * cbn [append]. reflexivity.
      * simpl in Hlen. rewrite length_append in Hlen. lia.
    + rewrite IH by (simpl in Hlen; lia).
      rewrite append_assoc. reflexivity.
Qed.

(** Joining the pieces of a split with the separator gives the text
    back. *)
Lemma join_split (sep s : string) :
  sep <> EmptyString -> JS.join sep (JS.split sep s) = s.
Proof.
  intros Hsep. unfold JS.split.
  now rewrite (join_splitFrom sep (String.length s) Hsep s EmptyString (le_n _)).
Qed.

Lemma includes_colon_cons (x : ascii) (s : string) :
  JS.includes ":" (String x s) = Ascii.eqb ":"%char x || JS.includes ":" s.
Proof. cbn [JS.includes JS.startsWith]. now rewrite andb_true_r. Qed.

(** Splitting at colons cuts at the first colon: what stands before it
    is the first piece. *)
Lemma splitFrom_first_colon (a b cur : string) :
  colonFree a = true ->
  JS.splitFrom ":" 0 cur (a ++ ":" ++ b) = (cur ++ a) :: JS.splitFrom ":" 0 EmptyString b.
Proof.
  unfold colonFree. revert cur. induction a as [|x a IH]; intros cur Ha.
  - cbn. now rewrite append_empty_r.
  - rewrite includes_colon_cons in Ha. apply negb_true_iff, orb_false_elim in Ha as [Hx Ha'].
    cbn [append JS.splitFrom JS.startsWith]. rewrite Hx. cbn [andb].
    rewrite IH by now rewrite Ha'. now rewrite append_assoc.
Qed.

Lemma first_colon (s : string) :
  JS.includes ":" s = true ->
  exists a b, s = a ++ ":" ++ b /\ colonFree a = true.
Proof.
  induction s as [|x s IH]; intros H; [discriminate |].
  rewrite includes_colon_cons in H.
  destruct (Ascii.eqb ":"%char x) eqn:Hx.
  - apply Ascii.eqb_eq in Hx. subst x. now exists EmptyString, s.
  - destruct (IH H) as (a & b & -> & Ha).
    exists (String x a), b. split; [reflexivity |].
    unfold colonFree in *. rewrite includes_colon_cons, Hx. exact Ha.
Qed.

Lemma orElse_some (s : string) : JS.orElse (Some s) EmptyString = s.
Proof. now destruct s. Qed.

(** The url entry parser on an entry with a colon: the label is what
    stands before the first colon, the value is all that follows it. *)
Lemma parseUrlEntry_first_colon (a b : string) :
  colonFree a = true ->
  parseUrlEntry (a ++ ":" ++ b) = {| Url.label := a; Url.value := b |}.
Proof.
  intros Ha. unfold parseUrlEntry, JS.split.
  rewrite splitFrom_first_colon by exact Ha.
  rewrite !orElse_some. cbn [append].
  f_equal. apply (join_split ":" b). discriminate.
Qed.

(** An entry without a colon is all label. *)
Lemma parseUrlEntry_no_colon (entry : string) :
  colonFree entry = true ->
  parseUrlEntry entry = {| Url.label := entry; Url.value := EmptyString |}.
Proof.
  intros H. unfold parseUrlEntry, JS.split.
  assert (G : forall cur, JS.splitFrom ":" 0 cur entry = [cur ++ entry]).
  { unfold colonFree in H. induction entry as [|x e IH]; intros cur.
    - cbn. now rewrite append_empty_r.
    - rewrite includes_colon_cons in H.
      apply negb_true_iff, orb_false_elim in H as [Hx He].
      cbn [JS.splitFrom JS.startsWith]. rewrite Hx. cbn [andb].
      rewrite IH by now rewrite He. now rewrite append_assoc. }
  rewrite G. cbn [append]. now rewrite orElse_some.
Qed.

(** C10.  The url entry parser splits an entry at its first colon only:
    for every entry with at least one colon, the label has no colon, and
    the label, a colon and the value give the entry back, so the colons
    of the value are kept. *)
Theorem parseUrlEntry_reconstructs (entry : string) :
  JS.includes ":" entry = true ->
  Url.label (parseUrlEntry entry) ++ ":" ++ Url.value (parseUrlEntry entry) = entry
  /\ JS.includes ":" (Url.label (parseUrlEntry entry)) = false.
Proof.
  intros H. destruct (first_colon entry H) as (a & b & -> & Ha).
  rewrite parseUrlEntry_first_colon by exact Ha. cbn [Url.label Url.value].
  split; [reflexivity |]. unfold colonFree in Ha. now apply negb_true_iff in Ha.
Qed.

(** ** Row bounds *)

Lemma startsWith_app (p t : string) : JS.startsWith p (p ++ t) = true.
Proof.
  induction p as [|a p IH]; [reflexivity |].
  cbn [append JS.startsWith]. now rewrite Ascii.eqb_refl, IH.
Qed.

Lemma includes_app (a p b : string) : JS.includes p (a ++ p ++ b) = true.
Proof.
  induction a as [|x a IH].
  - cbn [append]. destruct (p ++ b) eqn:E; cbn [JS.includes]; rewrite <- E.
    + apply startsWith_app.
    + now rewrite startsWith_app.
  - cbn [append JS.includes]. rewrite IH. apply orb_true_r.
Qed.

Lemma searchAllScript_repeatLine (limit : Z) :
  JS.includes (repeatLine (Z.min limit 10)) (searchAllScript limit) = true.
Proof.
  unfold searchAllScript, repeatLine, text. cbn [JS.join].
  set (n := JS.numberToString (Z.min limit 10)).
  match goal with
  | |- JS.includes _ (?a ++ nl ++ ?b ++ nl ++ ?c ++ nl ++ (?d ++ n) ++ nl ++ ?rest) = true =>
      replace (a ++ nl ++ b ++ nl ++ c ++ nl ++ (d ++ n) ++ nl ++ rest)
        with ((a ++ nl ++ b ++ nl ++ c ++ nl) ++ (d ++ n ++ nl) ++ rest)
        by (rewrite !append_assoc; reflexivity)
  end.
  apply includes_app.
Qed.

Lemma recentScript_repeatLine (limit : Z) :
  JS.includes (repeatLine (Z.min limit 20)) (recentScript limit) = true.
Proof.
  unfold recentScript, repeatLine, text. cbn [JS.join].
  set (n := JS.numberToString (Z.min limit 20)).
  match goal with
  | |- JS.includes _ (?a ++ nl ++ ?b ++ nl ++ ?c ++ nl ++ (?d ++ n) ++ nl ++ ?rest) = true =>
      replace (a ++ nl ++ b ++ nl ++ c ++ nl ++ (d ++ n) ++ nl ++ rest)
        with ((a ++ nl ++ b ++ nl ++ c ++ nl) ++ (d ++ n ++ nl) ++ rest)
        by (rewrite !append_assoc; reflexivity)
  end.
  apply includes_app.
Qed.

(** C7.  The row bound written into an enumeration script is clamped
    whatever limit the caller gives: the enumeration of a search without
    a query loops up to [min limit 10], that of the recent contacts up to
    [min limit 20]; the bound is never above the window, never above the
    limit, and every limit at or above the window gives the script of
    the window itself. *)
Theorem row_bound_clamped (limit : Z) :
  (JS.includes (repeatLine (Z.min limit 10)) (searchAllScript limit) = true
   /\ (Z.min limit 10 <= 10)%Z /\ (Z.min limit 10 <= limit)%Z
   /\ searchAllScript (Z.max limit 10) = searchAllScript 10)
  /\
  (JS.includes (repeatLine (Z.min limit 20)) (recentScript limit) = true
   /\ (Z.min limit 20 <= 20)%Z /\ (Z.min limit 20 <= limit)%Z
   /\ recentScript (Z.max limit 20) = recentScript 20).
Proof.
  split; (split; [| split; [lia | split; [lia |]]]).
  - apply searchAllScript_repeatLine.
  - unfold searchAllScript. now replace (Z.min (Z.max limit 10) 10) with (Z.min 10 10) by lia.
  - apply recentScript_repeatLine.
  - unfold recentScript. now replace (Z.min (Z.max limit 20) 20) with (Z.min 20 20) by lia.
Qed.

(** ** Labels *)

Lemma forEachFrom_append {A : Type} (line : A -> nat -> string) (l : list A) :
  forall from acc,
    JS.forEachFrom from (fun x index script => script ++ line x index) l acc
    = acc ++ String.concat EmptyString (indexedFrom from line l).
Proof.
  induction l as [|x l IH]; intros from acc.
  - cbn. now rewrite append_empty_r.
  - cbn [JS.forEachFrom indexedFrom]. rewrite IH, concat_empty_cons.
    now rewrite append_assoc.
Qed.

Lemma forEach_append {A : Type} (line : A -> nat -> string) (l : list A) (acc : string) :
  JS.forEach (fun x index script => script ++ line x index) l acc
  = acc ++ String.concat EmptyString (indexed line l).
Proof. apply forEachFrom_append. Qed.

(** The guard [list.length > 0] around a [forEach] changes nothing. *)
Lemma guarded_forEach_append {A : Type} (line : A -> nat -> string) (l : list A)
    (acc : string) :
  (if Nat.ltb 0 (List.length l)
   then JS.forEach (fun x index script => script ++ line x index) l acc
   else acc)
  = acc ++ String.concat EmptyString (indexed line l).
Proof.
  destruct l as [|x l]; [cbn; now rewrite append_empty_r |].
  cbn [List.length Nat.ltb Nat.leb]. apply forEach_append.
Qed.

Lemma indexedFrom_nth {A : Type} (line : A -> nat -> string) (l : list A) :
  forall from i, nth_error (indexedFrom from line l) i
                 = option_map (fun x => line x (from + i)) (nth_error l i).
Proof.
  induction l as [|x l IH]; intros from i.
  - now destruct i.
  - destruct i as [|i]; cbn [indexedFrom nth_error option_map].
    + now rewrite Nat.add_0_r.
    + rewrite IH. now rewrite Nat.add_succ_r.
Qed.

(** The entry written for the element at position [i] is made from that
    element and [i]. *)
Lemma indexed_nth {A : Type} (line : A -> nat -> string) (l : list A) (i : nat) :
  nth_error (indexed line l) i = option_map (fun x => line x i) (nth_error l i).
Proof. apply indexedFrom_nth. Qed.

Lemma createScript_entries (name organization job_title : string)
    (emails phones : list string) (urls : list Url.t) (note : string) :
  createScript name organization job_title emails phones urls note
  = createHeader name organization job_title note
    ++ String.concat EmptyString (indexed createEmailLine emails)
    ++ String.concat EmptyString (indexed createPhoneLine phones)
    ++ String.concat EmptyString (indexed (fun url _ => createUrlLine url) urls)
    ++ createFooter.
Proof.
  unfold createScript.
  rewrite (guarded_forEach_append createEmailLine).
  rewrite (guarded_forEach_append createPhoneLine).
  rewrite (guarded_forEach_append (fun url (_ : nat) => createUrlLine url)).
  now rewrite !append_assoc.
Qed.

Lemma addEmailScript_entries (contactId : string) (emails : list string) :
  addEmailScript contactId emails
  = addHeader contactId ++ String.concat EmptyString (indexed addEmailLine emails)
    ++ addFooter.
Proof. unfold addEmailScript. now rewrite forEach_append, append_assoc. Qed.

Lemma addPhoneScript_entries (contactId : string) (phones : list string) :
  addPhoneScript contactId phones
  = addHeader contactId ++ String.concat EmptyString (indexed addPhoneLine phones)
    ++ addFooter.
Proof. unfold addPhoneScript. now rewrite forEach_append, append_assoc. Qed.

Lemma addUrlScript_entries (contactId : string) (urls : list Url.t) :
  addUrlScript contactId urls
  = addHeader contactId
    ++ String.concat EmptyString (indexed (fun url _ => addUrlLine url) urls)
    ++ addFooter.
Proof.
  unfold addUrlScript.
  now rewrite (forEach_append (fun url (_ : nat) => addUrlLine url)), append_assoc.
Qed.

Lemma indexed_length {A : Type} (line : A -> nat -> string) (l : list A) :
  List.length (indexed line l) = List.length l.
Proof.
  unfold indexed. generalize 0. induction l as [|x l IH]; intros from;
    [reflexivity | cbn; now rewrite IH].
Qed.

(** C8.  On create and on an emails or phones update, the label of an
    entry comes from its position alone: [home] at index 0, [work] at
    index 1, and [email] or [phone] followed by the position counted from
    one at every later index.  The scripts are written out in full: each
    is its opening, one entry per element of the list in order, and its
    closing, and the entry of a position carries, between the quotes
    after [label:], the label of that position for an email or a phone
    and the escaped label of the url for a url, and between the quotes
    after [value:] the escaped element.  The escaped label of a url
    reads back as the label given. *)
Theorem labels_by_position :
  let entry := fun (indent kind plural person lbl val : string) =>
    nl ++ indent ++ "make new " ++ kind ++ " at end of " ++ plural ++ " of " ++ person
       ++ " with properties {label:" ++ (dq ++ lbl ++ dq)
       ++ ", value:" ++ (dq ++ val ++ dq) ++ "}" in
  let opening := fun contactId : string =>
    "tell application " ++ dq ++ "Contacts" ++ dq ++ nl
    ++ "  set targetPerson to person id " ++ dq ++ contactId ++ dq in
  let closing := nl ++ "  save" ++ nl ++ "end tell" in
  (* the label of a position *)
  (emailLabel 0 = "home" /\ emailLabel 1 = "work"
   /\ forall i, emailLabel (2 + i) = "email" ++ JS.numberToString (Z.of_nat (3 + i)))
  /\ (phoneLabel 0 = "home" /\ phoneLabel 1 = "work"
      /\ forall i, phoneLabel (2 + i) = "phone" ++ JS.numberToString (Z.of_nat (3 + i)))
  (* the creation script *)
  /\ (forall name organization job_title emails phones urls note,
        createScript name organization job_title emails phones urls note
        = createHeader name organization job_title note
          ++ String.concat EmptyString
               (indexed (fun email i =>
                           entry "        " "email" "emails" "newPerson"
                                 (emailLabel i) (escapeForAppleScript email))
                        emails)
          ++ String.concat EmptyString
               (indexed (fun phone i =>
                           entry "        " "phone" "phones" "newPerson"
                                 (phoneLabel i) (escapeForAppleScript phone))
                        phones)
          ++ String.concat EmptyString
               (indexed (fun url (_ : nat) =>
                           entry "        " "url" "urls" "newPerson"
                                 (escapeForAppleScript (Url.label url))
                                 (escapeForAppleScript (Url.value url)))
                        urls)
          ++ nl ++ "        save" ++ nl ++ "        return id of newPerson" ++ nl
          ++ "      end tell" ++ nl ++ "    ")
  (* the scripts of an update that append *)
  /\ (forall contactId emails,
        addEmailScript contactId emails
        = opening contactId
          ++ String.concat EmptyString
               (indexed (fun email i =>
                           entry "  " "email" "emails" "targetPerson"
                                 (emailLabel i) (escapeForAppleScript email))
                        emails)
          ++ closing)
  /\ (forall contactId phones,
        addPhoneScript contactId phones
        = opening contactId
          ++ String.concat EmptyString
               (indexed (fun phone i =>
                           entry "  " "phone" "phones" "targetPerson"
                                 (phoneLabel i) (escapeForAppleScript phone))
                        phones)
          ++ closing)
  /\ (forall contactId urls,
        addUrlScript contactId urls
        = opening contactId
          ++ String.concat EmptyString
               (indexed (fun url (_ : nat) =>
                           entry "  " "url" "urls" "targetPerson"
                                 (escapeForAppleScript (Url.label url))
                                 (escapeForAppleScript (Url.value url)))
                        urls)
          ++ closing)
  (* one entry per element, the entry at position i made from element i and i *)
  /\ (forall (A : Type) (line : A -> nat -> string) (l : list A),
        List.length (indexed line l) = List.length l
        /\ forall i, nth_error (indexed line l) i
                     = option_map (fun x => line x i) (nth_error l i))
  /\ (forall url, readLiteral (escapeForAppleScript (Url.label url)) = Url.label url).
Proof.
  cbv zeta.
  repeat match goal with |- _ /\ _ => split end; try reflexivity.
  - intros i. unfold emailLabel. cbn [Nat.add Nat.eqb]. now rewrite Nat.add_1_r.
  - intros i. unfold phoneLabel. cbn [Nat.add Nat.eqb]. now rewrite Nat.add_1_r.
  - intros. rewrite createScript_entries. reflexivity.
  - intros. rewrite addEmailScript_entries. reflexivity.
  - intros. rewrite addPhoneScript_entries. reflexivity.
  - intros. rewrite addUrlScript_entries. reflexivity.
  - intros A line l. split; [apply indexed_length | intros i; apply indexed_nth].
  - intros. apply readLiteral_escapeForAppleScript.
Qed.

(** ** The executor *)

Lemma executeAppleScript_exited (script : string) (st : State) (stdout : string)
    (w : World) :
  osascript script (world st) = (Exited stdout, w) ->
  executeAppleScript script st
  = (Ret (JS.trim stdout),
     {| world := w; events := (events st ++ [Osascript script (Exited stdout)])%list |}).
Proof. intros H. unfold executeAppleScript. now rewrite H. Qed.

Lemma executeAppleScript_failed (script : string) (st : State) (error : string)
    (w : World) :
  osascript script (world st) = (Failed error, w) ->
  executeAppleScript script st
  = (Throw ("AppleScript execution failed: " ++ error),
     {| world := w; events := (events st ++ [Osascript script (Failed error)])%list |}).
Proof. intros H. unfold executeAppleScript. now rewrite H. Qed.

(** ** Fetch *)

Lemma getContactScript_handler (identifier : string) :
  exists before after,
    getContactScript identifier = before ++ notFoundHandler ++ after.
Proof.
  exists (text [ tellContacts;
                 "  try";
                 "    set targetPerson to person id " ++ quoted identifier;
                 "  on error";
                 "    try";
                 "      set targetPerson to person " ++ quoted identifier ] ++ nl).
  eexists.
  unfold getContactScript, notFoundHandler, text. cbn [JS.join].
  rewrite !append_assoc. reflexivity.
Qed.

(** A failure of the interpreter on the lookup script is thrown, not
    answered. *)
Lemma getContact_execution_failed (identifier : string) (st : State)
    (error : string) (w : World) :
  osascript (getContactScript identifier) (world st) = (Failed error, w) ->
  getContact identifier st
  = (Throw ("Get contact failed: "
            ++ errorToString ("AppleScript execution failed: " ++ error)),
     {| world := w;
        events := (events st
                   ++ [Osascript (getContactScript identifier) (Failed error)])%list |}).
Proof.
  intros H. unfold getContact, tryCatch, bind, throw.
  now rewrite (executeAppleScript_failed _ _ _ _ H).
Qed.

(** When the lookup script exits and prints the not-found text, which
    its inner handler returns instead of raising, [getContact] gives the
    structured value with [success] false and the message
    [Contact not found]; it does not throw and runs no other script.  A
    failure of the interpreter is thrown instead, so the two are told
    apart.  Whether the script gets as far as its handler is the
    interpreter's answer and is assumed here. *)
Theorem getContact_not_found (identifier : string) (st : State) (stdout : string)
    (w : World) :
  osascript (getContactScript identifier) (world st) = (Exited stdout, w) ->
  JS.trim stdout = contactNotFound ->
  getContact identifier st
  = (Ret {| GetResponse.success := false;
            GetResponse.message := Some "Contact not found";
            GetResponse.contact := None |},
     {| world := w;
        events := (events st
                   ++ [Osascript (getContactScript identifier) (Exited stdout)])%list |})
  /\ (exists before after,
        getContactScript identifier = before ++ notFoundHandler ++ after)
  /\ (forall st' error w',
        osascript (getContactScript identifier) (world st') = (Failed error, w') ->
        exists message st'', getContact identifier st' = (Throw message, st'')).
Proof.
  intros Hrun Hout. split; [| split; [apply getContactScript_handler |]].
  - unfold getContact, tryCatch, bind, ret.
    rewrite (executeAppleScript_exited _ _ _ _ Hrun), Hout.
    reflexivity.
  - intros st' error w' Hfail.
    rewrite (getContact_execution_failed _ _ _ _ Hfail). eauto.
Qed.

(** C4.  The identifier is written between the quotes of the lookup
    script as it is given, at both places (lines 340 and 343).  For the
    identifier of one double quote the script therefore holds three
    double quotes in a row at each place: read left to right, the first
    two are an empty literal, the third opens a literal that runs over
    the line [on error] of the outer handler and is closed by the first
    quote of the second place.  The text differs from the script of the
    escaped identifier, whose two literals read back as the identifier.
    When the interpreter fails on that script, [getContact] does not
    return the not-found value: it throws [Get contact failed:] followed
    by the failure, after that one run. *)
Theorem getContact_quote_identifier_throws (st : State) (error : string) (w : World) :
  osascript (getContactScript dq) (world st) = (Failed error, w) ->
  getContactScript dq
  = "tell application " ++ dq ++ "Contacts" ++ dq ++ nl
    ++ "  try" ++ nl
    ++ "    set targetPerson to person id " ++ dq ++ dq ++ dq ++ nl
    ++ "  on error" ++ nl
    ++ "    try" ++ nl
    ++ "      set targetPerson to person " ++ dq ++ dq ++ dq ++ nl
    ++ "    on error" ++ nl
    ++ "      return " ++ dq ++ "Contact not found" ++ dq ++ nl
    ++ "    end try" ++ nl
    ++ "  end try" ++ nl
    ++ "  " ++ nl
    ++ "  return id of targetPerson & " ++ dq ++ "|" ++ dq
    ++ " & name of targetPerson & " ++ dq ++ "|" ++ dq
    ++ " & organization of targetPerson & " ++ dq ++ "|" ++ dq
    ++ " & job title of targetPerson & " ++ dq ++ "|" ++ dq
    ++ " & note of targetPerson" ++ nl
    ++ "end tell"
  /\ literals (getContactScript dq)
     = [ "Contacts";
         EmptyString;
         nl ++ "  on error" ++ nl ++ "    try" ++ nl
            ++ "      set targetPerson to person ";
         EmptyString;
         "Contact not found"; "|"; "|"; "|"; "|" ]
  /\ literals (getContactScript (escapeForAppleScript dq))
     = [ "Contacts"; bs ++ dq; bs ++ dq; "Contact not found"; "|"; "|"; "|"; "|" ]
  /\ readLiteral (bs ++ dq) = dq
  /\ getContact dq st
     = (Throw ("Get contact failed: "
               ++ errorToString ("AppleScript execution failed: " ++ error)),
        {| world := w;
           events := (events st
                      ++ [Osascript (getContactScript dq) (Failed error)])%list |}).
Proof.
  intros Hfail.
  repeat match goal with |- _ /\ _ => split end; try reflexivity.
  apply (getContact_execution_failed _ _ _ _ Hfail).
Qed.

(** C9.  When the lookup script answers with a record, [getContact]
    returns [success] true with the contact, whatever the three list
    scripts do: a list script that fails leaves its field the empty
    list, one that exits gives the parsed list, and no failure of a list
    script is thrown. *)
Theorem getContact_secondary_failures (identifier : string) (st : State)
    (stdout : string) (w : World) (o1 o2 o3 : Outcome) (w1 w2 w3 : World) :
  osascript (getContactScript identifier) (world st) = (Exited stdout, w) ->
  JS.trim stdout <> contactNotFound ->
  osascript (emailScript (recordField (JS.trim stdout) 0)) w = (o1, w1) ->
  osascript (phoneScript (recordField (JS.trim stdout) 0)) w1 = (o2, w2) ->
  osascript (urlScript (recordField (JS.trim stdout) 0)) w2 = (o3, w3) ->
  getContact identifier st
  = (Ret {| GetResponse.success := true;
            GetResponse.message := None;
            GetResponse.contact :=
              Some {| Contact.id := recordField (JS.trim stdout) 0;
                      Contact.name := recordField (JS.trim stdout) 1;
                      Contact.organization := recordField (JS.trim stdout) 2;
                      Contact.job_title := recordField (JS.trim stdout) 3;
                      Contact.note := recordField (JS.trim stdout) 4;
                      Contact.emails := listOrEmpty parseList o1;
                      Contact.phones := listOrEmpty parseList o2;
                      Contact.urls := urlsOrEmpty o3 |} |},
     {| world := w3;
        events :=
          (events st
           ++ [ Osascript (getContactScript identifier) (Exited stdout);
                Osascript (emailScript (recordField (JS.trim stdout) 0)) o1;
                Osascript (phoneScript (recordField (JS.trim stdout) 0)) o2;
                Osascript (urlScript (recordField (JS.trim stdout) 0)) o3 ])%list |}).
Proof.
  intros Hrun Hout H1 H2 H3.
  unfold getContact, tryCatch, bind, ret.
  rewrite (executeAppleScript_exited _ _ _ _ Hrun).
  apply String.eqb_neq in Hout. rewrite Hout.
  fold (recordField (JS.trim stdout) 0).
  unfold executeAppleScript, emit. cbn [world events].
  rewrite H1. destruct o1; cbn [world events]; rewrite H2;
    destruct o2; cbn [world events]; rewrite H3;
    destruct o3; cbn [world events listOrEmpty urlsOrEmpty];
    rewrite <- !app_assoc; reflexivity.
Qed.

(** ** Update *)

(** Each block of [updateContact] is the step of the specification for
    its field. *)

Ltac run_block :=
  unfold applyField, mutationScripts, tryCatch, bind, ret, consoleError;
  cbn [option_map runScripts clearThenAppend bind];
  unfold bind, ret;
  repeat match goal with
         | |- context [executeAppleScript ?s ?st] =>
             destruct (executeAppleScript s st) as [[? | ?] ?]; try reflexivity
         end.

Lemma updateName_applyField contactId updates collected st :
  updateName contactId updates collected st
  = applyField contactId updates FName collected st.
Proof.
  unfold updateName. destruct (UpdateArgs.name updates) eqn:E; unfold applyField;
    cbn [mutationScripts]; rewrite E; [| reflexivity]. run_block.
Qed.

Lemma updateOrganization_applyField contactId updates collected st :
  updateOrganization contactId updates collected st
  = applyField contactId updates FOrganization collected st.
Proof.
  unfold updateOrganization.
  destruct (UpdateArgs.organization updates) eqn:E; unfold applyField;
    cbn [mutationScripts]; rewrite E; [| reflexivity]. run_block.
Qed.

Lemma updateJobTitle_applyField contactId updates collected st :
  updateJobTitle contactId updates collected st
  = applyField contactId updates FJobTitle collected st.
Proof.
  unfold updateJobTitle.
  destruct (UpdateArgs.job_title updates) eqn:E; unfold applyField;
    cbn [mutationScripts]; rewrite E; [| reflexivity]. run_block.
Qed.

Lemma updateNote_applyField contactId updates collected st :
  updateNote contactId updates collected st
  = applyField contactId updates FNote collected st.
Proof.
  unfold updateNote.
  destruct (UpdateArgs.note updates) eqn:E; unfold applyField;
    cbn [mutationScripts]; rewrite E; [| reflexivity]. run_block.
Qed.

Lemma updateUrls_applyField contactId updates collected st :
  updateUrls contactId updates collected st
  = applyField contactId updates FUrls collected st.
Proof.
  unfold updateUrls.
  destruct (UpdateArgs.urls updates) as [[|u l]|] eqn:E; unfold applyField;
    cbn [mutationScripts]; rewrite E; [| | reflexivity];
    cbn [List.length Nat.ltb Nat.leb]; run_block.
Qed.

Lemma updateEmails_applyField contactId updates collected st :
  updateEmails contactId updates collected st
  = applyField contactId updates FEmails collected st.
Proof.
  unfold updateEmails.
  destruct (UpdateArgs.emails updates) as [[|u l]|] eqn:E; unfold applyField;
    cbn [mutationScripts]; rewrite E; [| | reflexivity];
    cbn [List.length Nat.ltb Nat.leb]; run_block.
Qed.

Lemma updatePhones_applyField contactId updates collected st :
  updatePhones contactId updates collected st
  = applyField contactId updates FPhones collected st.
Proof.
  unfold updatePhones.
  destruct (UpdateArgs.phones updates) as [[|u l]|] eqn:E; unfold applyField;
    cbn [mutationScripts]; rewrite E; [| | reflexivity];
    cbn [List.length Nat.ltb Nat.leb]; run_block.
Qed.

(** A step of the sequence never throws. *)
Lemma applyField_returns contactId updates f collected st :
  exists collected' st',
    applyField contactId updates f collected st = (Ret collected', st').
Proof.
  unfold applyField. destruct (mutationScripts contactId updates f) as [scripts|].
  - destruct (runScripts scripts st) as [[r | e] st']; eauto.
  - unfold ret. eauto.
Qed.

Lemma applyFields_returns contactId updates fields :
  forall collected st,
  exists collected' st',
    applyFields contactId updates fields collected st = (Ret collected', st').
Proof.
  induction fields as [|f fields IH]; intros collected st.
  - cbn. unfold ret. eauto.
  - cbn [applyFields]. unfold bind.
    destruct (applyField_returns contactId updates f collected st) as (c1 & st1 & ->).
    apply IH.
Qed.

(** A fetch that answers [success] carries the contact. *)
Lemma getContact_success (identifier : string) (st st1 : State)
    (existing : GetResponse.t) :
  getContact identifier st = (Ret existing, st1) ->
  GetResponse.success existing = true ->
  exists contact,
    existing = {| GetResponse.success := true;
                  GetResponse.message := None;
                  GetResponse.contact := Some contact |}.
Proof.
  unfold getContact, tryCatch, bind, ret, throw.
  destruct (executeAppleScript (getContactScript identifier) st) as [[result | e] s0];
    [| discriminate].
  destruct (String.eqb result contactNotFound).
  { intros E. injection E as <- _. discriminate. }
  repeat match goal with
         | |- context [executeAppleScript ?s ?st] =>
             destruct (executeAppleScript s st) as [[? | ?] ?]
         end;
    intros E _; injection E as <- _; eauto.
Qed.

(** Fail fast: a fetch that does not resolve ends the update before any
    mutation. *)
Lemma updateContact_not_found (args : UpdateArgs.t) (st st1 : State)
    (existing : GetResponse.t) :
  getContact (UpdateArgs.identifier args) st = (Ret existing, st1) ->
  GetResponse.success existing = false ->
  updateContact args st = (Throw "Contact not found", st1).
Proof.
  intros Hget Hno. unfold updateContact. unfold bind at 1.
  rewrite Hget, Hno. reflexivity.
Qed.

(** After the fetch has resolved, [updateContact] is the sequence of the
    specification over the seven fields. *)
Lemma updateContact_applyFields (args : UpdateArgs.t) (st st1 : State)
    (message : option string) (contact : Contact.t) :
  getContact (UpdateArgs.identifier args) st
  = (Ret {| GetResponse.success := true;
            GetResponse.message := message;
            GetResponse.contact := Some contact |}, st1) ->
  updateContact args st
  = match applyFields (Contact.id contact) args fieldOrder [] st1 with
    | (Ret fields, st2) =>
        (Ret {| UpdateResponse.success := true;
                UpdateResponse.message := "Updated contact: " ++ UpdateArgs.identifier args;
                UpdateResponse.updated_fields := fields |}, st2)
    | (Throw error, st2) => (Throw error, st2)
    end.
Proof.
  intros Hget. unfold updateContact. unfold bind at 1. rewrite Hget.
  cbn [GetResponse.success GetResponse.contact negb].
  unfold fieldOrder. cbn [applyFields]. unfold bind.
  rewrite updateName_applyField.
  destruct (applyField_returns (Contact.id contact) args FName [] st1) as (c1 & s1 & ->).
  rewrite updateOrganization_applyField.
  destruct (applyField_returns (Contact.id contact) args FOrganization c1 s1) as (c2 & s2 & ->).
  rewrite updateJobTitle_applyField.
  destruct (applyField_returns (Contact.id contact) args FJobTitle c2 s2) as (c3 & s3 & ->).
  rewrite updateNote_applyField.
  destruct (applyField_returns (Contact.id contact) args FNote c3 s3) as (c4 & s4 & ->).
  rewrite updateUrls_applyField.
  destruct (applyField_returns (Contact.id contact) args FUrls c4 s4) as (c5 & s5 & ->).
  rewrite updateEmails_applyField.
  destruct (applyField_returns (Contact.id contact) args FEmails c5 s5) as (c6 & s6 & ->).
  rewrite updatePhones_applyField.
  destruct (applyField_returns (Contact.id contact) args FPhones c6 s6) as (c7 & s7 & ->).
  reflexivity.
Qed.

(** C3.  When the identifier resolves by a fetch, [updateContact] runs
    the mutation of each field present in the request, one field after
    the other; the name of a field is collected exactly when its mutation
    went through, a failure is written to the console and not thrown,
    and the answer is [success] with the names collected.  So when only
    the organization and the note are to be updated and the script of the
    note fails after that of the organization went through, the answer
    is [success] with the organization alone; and a request with no field
    gives [success] with no field updated. *)
Theorem updateContact_partial_failure (args : UpdateArgs.t) (st st1 : State)
    (existing : GetResponse.t) :
  getContact (UpdateArgs.identifier args) st = (Ret existing, st1) ->
  GetResponse.success existing = true ->
  exists contact fields st2,
    GetResponse.contact existing = Some contact
    /\ applyFields (Contact.id contact) args fieldOrder [] st1 = (Ret fields, st2)
    /\ updateContact args st
       = (Ret {| UpdateResponse.success := true;
                 UpdateResponse.message :=
                   "Updated contact: " ++ UpdateArgs.identifier args;
                 UpdateResponse.updated_fields := fields |}, st2)
    /\ (forall organization note r st_b error st_c,
          UpdateArgs.name args = None ->
          UpdateArgs.organization args = Some organization ->
          UpdateArgs.job_title args = None ->
          UpdateArgs.note args = Some note ->
          UpdateArgs.urls args = None ->
          UpdateArgs.emails args = None ->
          UpdateArgs.phones args = None ->
          executeAppleScript (organizationScript (Contact.id contact) organization) st1
          = (Ret r, st_b) ->
          executeAppleScript (noteScript (Contact.id contact) note) st_b
          = (Throw error, st_c) ->
          fields = ["organization"]
          /\ st2 = emit (ConsoleError "Failed to update note:" error) st_c)
    /\ (UpdateArgs.name args = None ->
        UpdateArgs.organization args = None ->
        UpdateArgs.job_title args = None ->
        UpdateArgs.note args = None ->
        UpdateArgs.urls args = None ->
        UpdateArgs.emails args = None ->
        UpdateArgs.phones args = None ->
        fields = [] /\ st2 = st1).
Proof.
  intros Hget Hyes.
  destruct (getContact_success _ _ _ _ Hget Hyes) as [contact ->].
  destruct (applyFields_returns (Contact.id contact) args fieldOrder [] st1)
    as (fields & st2 & Happ).
  exists contact, fields, st2. split; [reflexivity |]. split; [exact Happ |]. split.
  { rewrite (updateContact_applyFields args st st1 None contact Hget).
    now rewrite Happ. }
  split.
  - intros organization note r st_b error st_c Hn Ho Hj Hnote Hu He Hp Horg Hnot.
    unfold fieldOrder in Happ. cbn [applyFields] in Happ.
    unfold bind, applyField in Happ. cbn [mutationScripts] in Happ.
    rewrite Hn, Ho, Hj, Hnote, Hu, He, Hp in Happ.
    cbn [option_map runScripts] in Happ. unfold bind, ret in Happ.
    rewrite Horg in Happ. cbn [app fieldName] in Happ. rewrite Hnot in Happ.
    cbn [failurePrefix] in Happ.
    injection Happ as <- <-. split; reflexivity.
  - intros Hn Ho Hj Hnote Hu He Hp.
    unfold fieldOrder in Happ. cbn [applyFields] in Happ.
    unfold bind, applyField in Happ. cbn [mutationScripts] in Happ.
    rewrite Hn, Ho, Hj, Hnote, Hu, He, Hp in Happ.
    cbn [option_map] in Happ. unfold ret in Happ.
    injection Happ as <- <-. split; reflexivity.
Qed.

(** Each collection block is the replacement of the specification. *)
Ltac run_replace :=
  unfold replaceCollection, tryCatch, bind, ret, consoleError;
  cbn [List.length Nat.ltb Nat.leb];
  repeat match goal with
         | |- context [executeAppleScript ?s ?st] =>
             destruct (executeAppleScript s st) as [[? | ?] ?]; try reflexivity
         end.

Lemma updateUrls_replaceCollection contactId updates collected st :
  updateUrls contactId updates collected st
  = replaceCollection (clearUrlScript contactId) (addUrlScript contactId)
      "urls" "Failed to update URLs:" (UpdateArgs.urls updates) collected st.
Proof.
  unfold updateUrls. destruct (UpdateArgs.urls updates) as [[|u l]|];
    [| | reflexivity]; run_replace.
Qed.

Lemma updateEmails_replaceCollection contactId updates collected st :
  updateEmails contactId updates collected st
  = replaceCollection (clearEmailScript contactId) (addEmailScript contactId)
      "emails" "Failed to update emails:" (UpdateArgs.emails updates) collected st.
Proof.
  unfold updateEmails. destruct (UpdateArgs.emails updates) as [[|u l]|];
    [| | reflexivity]; run_replace.
Qed.

Lemma updatePhones_replaceCollection contactId updates collected st :
  updatePhones contactId updates collected st
  = replaceCollection (clearPhoneScript contactId) (addPhoneScript contactId)
      "phones" "Failed to update phones:" (UpdateArgs.phones updates) collected st.
Proof.
  unfold updatePhones. destruct (UpdateArgs.phones updates) as [[|u l]|];
    [| | reflexivity]; run_replace.
Qed.

(** A supplied list that is not empty, with both scripts going through:
    the script that deletes runs first, the script that appends second,
    and the field is collected. *)
Lemma replaceCollection_run {A : Type} (clear : string) (add : list A -> string)
    (name prefix : string) (x : A) (rest : list A) (collected : list string)
    (st : State) (out1 out2 : string) (w1 w2 : World) :
  osascript clear (world st) = (Exited out1, w1) ->
  osascript (add (x :: rest)) w1 = (Exited out2, w2) ->
  replaceCollection clear add name prefix (Some (x :: rest)) collected st
  = (Ret (collected ++ [name])%list,
     {| world := w2;
        events := (events st ++ [ Osascript clear (Exited out1);
                                  Osascript (add (x :: rest)) (Exited out2) ])%list |}).
Proof.
  intros Hclear Hadd. unfold replaceCollection.
  rewrite (executeAppleScript_exited _ _ _ _ Hclear).
  rewrite (executeAppleScript_exited (add (x :: rest))
             {| world := w1;
                events := (events st ++ [Osascript clear (Exited out1)])%list |}
             out2 w2 Hadd).
  cbn [events world]. now rewrite <- app_assoc.
Qed.

(** C5.  On an update, a collection field that is supplied is replaced
    and never merged: the block first runs the script that deletes every
    entry of the collection, and only after it went through the script
    that appends the supplied entries; a field left out of the request
    runs no script and changes nothing.  The two scripts are written out
    in full: the first deletes every url, email or phone of the person
    and saves; the second makes one new entry at the end of the
    collection for each element of the supplied list, in the order of
    the list, each with the escaped element as its value, and saves. *)
Theorem update_collections_replace (contactId : string) (updates : UpdateArgs.t)
    (collected : list string) (st : State) :
  let opening :=
    "tell application " ++ dq ++ "Contacts" ++ dq ++ nl
    ++ "  set targetPerson to person id " ++ dq ++ contactId ++ dq in
  let closing := nl ++ "  save" ++ nl ++ "end tell" in
  let deleting := fun kind : string =>
    opening ++ nl ++ "  delete every " ++ kind ++ " of targetPerson" ++ closing in
  let entry := fun (kind plural lbl val : string) =>
    nl ++ "  make new " ++ kind ++ " at end of " ++ plural
       ++ " of targetPerson with properties {label:" ++ (dq ++ lbl ++ dq)
       ++ ", value:" ++ (dq ++ val ++ dq) ++ "}" in
  (* the three collection blocks *)
  (updateUrls contactId updates collected st
   = replaceCollection (clearUrlScript contactId) (addUrlScript contactId)
       "urls" "Failed to update URLs:" (UpdateArgs.urls updates) collected st
   /\ updateEmails contactId updates collected st
      = replaceCollection (clearEmailScript contactId) (addEmailScript contactId)
          "emails" "Failed to update emails:" (UpdateArgs.emails updates) collected st
   /\ updatePhones contactId updates collected st
      = replaceCollection (clearPhoneScript contactId) (addPhoneScript contactId)
          "phones" "Failed to update phones:" (UpdateArgs.phones updates) collected st)
  (* the scripts that delete *)
  /\ clearUrlScript contactId = deleting "url"
  /\ clearEmailScript contactId = deleting "email"
  /\ clearPhoneScript contactId = deleting "phone"
  (* the scripts that append: the supplied list, in its order *)
  /\ (forall urls,
        addUrlScript contactId urls
        = opening
          ++ String.concat EmptyString
               (indexed (fun url (_ : nat) =>
                           entry "url" "urls"
                                 (escapeForAppleScript (Url.label url))
                                 (escapeForAppleScript (Url.value url)))
                        urls)
          ++ closing)
  /\ (forall emails,
        addEmailScript contactId emails
        = opening
          ++ String.concat EmptyString
               (indexed (fun email i =>
                           entry "email" "emails" (emailLabel i)
                                 (escapeForAppleScript email))
                        emails)
          ++ closing)
  /\ (forall phones,
        addPhoneScript contactId phones
        = opening
          ++ String.concat EmptyString
               (indexed (fun phone i =>
                           entry "phone" "phones" (phoneLabel i)
                                 (escapeForAppleScript phone))
                        phones)
          ++ closing)
  (* one entry per element, the entry at position i made from element i *)
  /\ (forall (A : Type) (line : A -> nat -> string) (l : list A),
        List.length (indexed line l) = List.length l
        /\ forall i, nth_error (indexed line l) i
                     = option_map (fun x => line x i) (nth_error l i))
  (* what the escaped value of an entry stands for *)
  /\ (forall val, readLiteral (escapeForAppleScript val) = val)
  (* a supplied list, both scripts going through: delete first, append second *)
  /\ (forall url rest out1 w1 out2 w2,
        UpdateArgs.urls updates = Some (url :: rest) ->
        osascript (clearUrlScript contactId) (world st) = (Exited out1, w1) ->
        osascript (addUrlScript contactId (url :: rest)) w1 = (Exited out2, w2) ->
        updateUrls contactId updates collected st
        = (Ret (collected ++ ["urls"])%list,
           {| world := w2;
              events := (events st
                         ++ [ Osascript (clearUrlScript contactId) (Exited out1);
                              Osascript (addUrlScript contactId (url :: rest))
                                        (Exited out2) ])%list |}))
  /\ (forall email rest out1 w1 out2 w2,
        UpdateArgs.emails updates = Some (email :: rest) ->
        osascript (clearEmailScript contactId) (world st) = (Exited out1, w1) ->
        osascript (addEmailScript contactId (email :: rest)) w1 = (Exited out2, w2) ->
        updateEmails contactId updates collected st
        = (Ret (collected ++ ["emails"])%list,
           {| world := w2;
              events := (events st
                         ++ [ Osascript (clearEmailScript contactId) (Exited out1);
                              Osascript (addEmailScript contactId (email :: rest))
                                        (Exited out2) ])%list |}))
  /\ (forall phone rest out1 w1 out2 w2,
        UpdateArgs.phones updates = Some (phone :: rest) ->
        osascript (clearPhoneScript contactId) (world st) = (Exited out1, w1) ->
        osascript (addPhoneScript contactId (phone :: rest)) w1 = (Exited out2, w2) ->
        updatePhones contactId updates collected st
        = (Ret (collected ++ ["phones"])%list,
           {| world := w2;
              events := (events st
                         ++ [ Osascript (clearPhoneScript contactId) (Exited out1);
                              Osascript (addPhoneScript contactId (phone :: rest))
                                        (Exited out2) ])%list |}))
  (* a collection field left out *)
  /\ match UpdateArgs.urls updates with
     | None => updateUrls contactId updates collected st = (Ret collected, st)
     | Some _ => True
     end
  /\ match UpdateArgs.emails updates with
     | None => updateEmails contactId updates collected st = (Ret collected, st)
     | Some _ => True
     end
  /\ match UpdateArgs.phones updates with
     | None => updatePhones contactId updates collected st = (Ret collected, st)
     | Some _ => True
     end
  (* a scalar field left out *)
  /\ match UpdateArgs.name updates with
     | None => updateName contactId updates collected st = (Ret collected, st)
     | Some _ => True
     end
  /\ match UpdateArgs.organization updates with
     | None => updateOrganization contactId updates collected st = (Ret collected, st)
     | Some _ => True
     end
  /\ match UpdateArgs.job_title updates with
     | None => updateJobTitle contactId updates collected st = (Ret collected, st)
     | Some _ => True
     end
  /\ match UpdateArgs.note updates with
     | None => updateNote contactId updates collected st = (Ret collected, st)
     | Some _ => True
     end.
Proof.
  cbv zeta.
  split; [split; [| split] |].
  - apply updateUrls_replaceCollection.
  - apply updateEmails_replaceCollection.
  - apply updatePhones_replaceCollection.
  - split; [reflexivity |]. split; [reflexivity |]. split; [reflexivity |].
    split; [intros urls; rewrite addUrlScript_entries; reflexivity |].
    split; [intros emails; rewrite addEmailScript_entries; reflexivity |].
    split; [intros phones; rewrite addPhoneScript_entries; reflexivity |].
    split; [intros A line l; split; [apply indexed_length | intros i; apply indexed_nth] |].
    split; [apply readLiteral_escapeForAppleScript |].
    split; [intros url rest out1 w1 out2 w2 Hsome Hclear Hadd;
            rewrite updateUrls_replaceCollection, Hsome;
            exact (replaceCollection_run _ _ _ _ _ _ _ _ _ _ _ _ Hclear Hadd) |].
    split; [intros email rest out1 w1 out2 w2 Hsome Hclear Hadd;
            rewrite updateEmails_replaceCollection, Hsome;
            exact (replaceCollection_run _ _ _ _ _ _ _ _ _ _ _ _ Hclear Hadd) |].
    split; [intros phone rest out1 w1 out2 w2 Hsome Hclear Hadd;
            rewrite updatePhones_replaceCollection, Hsome;
            exact (replaceCollection_run _ _ _ _ _ _ _ _ _ _ _ _ Hclear Hadd) |].
    split; [rewrite updateUrls_replaceCollection;
            destruct (UpdateArgs.urls updates); [exact I | reflexivity] |].
    split; [rewrite updateEmails_replaceCollection;
            destruct (UpdateArgs.emails updates); [exact I | reflexivity] |].
    split; [rewrite updatePhones_replaceCollection;
            destruct (UpdateArgs.phones updates); [exact I | reflexivity] |].
    unfold updateName, updateOrganization, updateJobTitle, updateNote.
    destruct (UpdateArgs.name updates), (UpdateArgs.organization updates),
      (UpdateArgs.job_title updates), (UpdateArgs.note updates);
      repeat split.
Qed.

(** ** Search *)

Lemma slice0_singleton {A : Type} (x : A) (limit : Z) :
  (1 <= limit)%Z -> JS.slice0 [x] limit = [x].
Proof.
  intros H. unfold JS.slice0.
  destruct (Z.ltb_spec limit 0); [lia |].
  destruct (Z.to_nat limit) eqn:E; [lia |]. cbn [firstn]. now rewrite firstn_nil.
Qed.

(** Without a query, an interpreter that prints nothing gives the empty
    result: this path tests the output before it splits it. *)
Lemma searchContacts_all_no_output (limit : option Z) (st : State)
    (stdout : string) (w : World) :
  osascript (searchAllScript (withDefault 20%Z limit)) (world st) = (Exited stdout, w) ->
  JS.trim stdout = EmptyString ->
  searchContacts {| SearchArgs.query := None; SearchArgs.limit := limit |} st
  = (Ret {| SearchResponse.success := true;
            SearchResponse.count := 0;
            SearchResponse.contacts := [] |},
     {| world := w;
        events :=
          (events st
           ++ [Osascript (searchAllScript (withDefault 20%Z limit)) (Exited stdout)])%list |}).
Proof.
  intros Hrun Hout. unfold searchContacts, tryCatch, bind, ret.
  cbn [SearchArgs.query SearchArgs.limit withDefault JS.truthy].
  rewrite (executeAppleScript_exited _ _ _ _ Hrun), Hout. reflexivity.
Qed.

(** C6.  What [searchContacts] gives on a query whose match set is empty.
    The interpreter prints nothing, the query path splits the empty
    output into one empty piece, and for every limit of at least one the
    answer counts one contact with an empty name, where the
    specification has a count of zero and no contact. *)
Theorem searchContacts_query_no_output (query : string) (limit : option Z)
    (st : State) (stdout : string) (w : World) :
  JS.truthy query = true ->
  (1 <= withDefault 20 limit)%Z ->
  osascript (searchQueryScript query) (world st) = (Exited stdout, w) ->
  JS.trim stdout = EmptyString ->
  searchContacts {| SearchArgs.query := Some query; SearchArgs.limit := limit |} st
  = (Ret {| SearchResponse.success := true;
            SearchResponse.count := 1;
            SearchResponse.contacts :=
              [ {| SearchHit.name := EmptyString;
                   SearchHit.organization := EmptyString |} ] |},
     {| world := w;
        events :=
          (events st ++ [Osascript (searchQueryScript query) (Exited stdout)])%list |}).
Proof.
  intros Hq Hlimit Hrun Hout. unfold searchContacts, tryCatch, bind, ret.
  cbn [SearchArgs.query SearchArgs.limit withDefault]. rewrite Hq.
  rewrite (executeAppleScript_exited _ _ _ _ Hrun), Hout.
  change (JS.split ", " EmptyString) with [EmptyString].
  rewrite slice0_singleton by exact Hlimit. reflexivity.
Qed.

(** ** Texts that reach a script as they were given *)

(** C2.  What the scripts of search and fetch embed.  The query and the
    identifier are spliced between the quotes as they were given; for a
    text of one double quote the script is not the one the escaped text
    would give, while the scripts of create and update splice the
    escaped text. *)
Theorem query_and_identifier_not_escaped :
  (forall query,
      searchQueryScript query
      = tellContacts ++ " to return name of people whose name contains "
        ++ dq ++ query ++ dq)
  /\ (exists middle after,
        forall identifier,
          getContactScript identifier
          = text [ tellContacts; "  try"; "    set targetPerson to person id " ]
            ++ dq ++ identifier ++ dq ++ middle ++ dq ++ identifier ++ dq ++ after)
  /\ escapeForAppleScript dq = bs ++ dq
  /\ String.eqb (searchQueryScript dq) (searchQueryScript (escapeForAppleScript dq))
     = false
  /\ String.eqb (getContactScript dq) (getContactScript (escapeForAppleScript dq))
     = false
  /\ (forall contactId organization,
        organizationScript contactId organization
        = text [ tellContacts;
                 targetPersonLine contactId;
                 "  set organization of targetPerson to "
                   ++ dq ++ escapeForAppleScript organization ++ dq;
                 "  save";
                 "end tell" ]).
Proof.
  split; [reflexivity |].
  split.
  { exists (text [ EmptyString; "  on error"; "    try";
                   "      set targetPerson to person " ]).
    eexists. intros identifier.
    unfold getContactScript, text, quoted. cbn [JS.join].
    rewrite !append_assoc. reflexivity. }
  repeat split.
Qed.

End Properties.

(** ** The properties on sample runs *)

Lemma parseUrlEntry_reconstructs_sample :
  Url.label (parseUrlEntry "LinkedIn:https://linkedin.com/in/ada:1") ++ ":"
    ++ Url.value (parseUrlEntry "LinkedIn:https://linkedin.com/in/ada:1")
  = "LinkedIn:https://linkedin.com/in/ada:1"
  /\ JS.includes ":" (Url.label (parseUrlEntry "LinkedIn:https://linkedin.com/in/ada:1"))
     = false.
Proof. apply parseUrlEntry_reconstructs. reflexivity. Defined.

Lemma getContact_not_found_sample :
  @getContact nothingFound "nonexistent-id" (initial nothingFound tt)
  = (Ret {| GetResponse.success := false;
            GetResponse.message := Some "Contact not found";
            GetResponse.contact := None |},
     reached nothingFound tt
       [Osascript (getContactScript "nonexistent-id") (Exited (contactNotFound ++ nl))])
  /\ (exists before after,
        getContactScript "nonexistent-id" = before ++ notFoundHandler ++ after)
  /\ (forall st' error w',
        @osascript nothingFound (getContactScript "nonexistent-id") (world st')
        = (Failed error, w') ->
        exists message st'',
          @getContact nothingFound "nonexistent-id" st' = (Throw message, st'')).
Proof.
  apply (@getContact_not_found nothingFound "nonexistent-id" (initial nothingFound tt)
           (contactNotFound ++ nl) tt); reflexivity.
Defined.

Lemma getContact_quote_identifier_throws_sample :
  @osascript refusesTripleQuote (getContactScript dq) tt
  = (Failed "Error: Command failed: osascript", tt)
  /\ literals (getContactScript dq)
     = [ "Contacts";
         EmptyString;
         nl ++ "  on error" ++ nl ++ "    try" ++ nl
            ++ "      set targetPerson to person ";
         EmptyString;
         "Contact not found"; "|"; "|"; "|"; "|" ]
  /\ @getContact refusesTripleQuote dq (initial refusesTripleQuote tt)
     = (Throw ("Get contact failed: Error: AppleScript execution failed: "
               ++ "Error: Command failed: osascript"),
        reached refusesTripleQuote tt
          [Osascript (getContactScript dq) (Failed "Error: Command failed: osascript")]).
Proof.
  split; [reflexivity |].
  pose proof (@getContact_quote_identifier_throws refusesTripleQuote
                (initial refusesTripleQuote tt)
                "Error: Command failed: osascript" tt eq_refl)
    as [_ [Hread [_ [_ Hthrows]]]].
  split; [exact Hread | exact Hthrows].
Defined.

Lemma getContact_secondary_failures_sample :
  exists st,
    @getContact adaOnly "ID1" (initial adaOnly tt)
    = (Ret {| GetResponse.success := true;
              GetResponse.message := None;
              GetResponse.contact :=
                Some {| Contact.id := "ID1";
                        Contact.name := "Ada Lovelace";
                        Contact.organization := "Analytical Engines";
                        Contact.job_title := EmptyString;
                        Contact.note := EmptyString;
                        Contact.emails := [];
                        Contact.phones := ["555-0100"; "555-0101"];
                        Contact.urls := [] |} |}, st).
Proof.
  eexists.
  refine (eq_trans
            (@getContact_secondary_failures adaOnly "ID1" (initial adaOnly tt)
               ("ID1|Ada Lovelace|Analytical Engines||" ++ nl) tt
               (Failed "Error: Command failed: osascript")
               (Exited ("555-0100, 555-0101" ++ nl))
               (Failed "Error: Command failed: osascript")
               tt tt tt _ _ _ _ _) _).
  - reflexivity.
  - vm_compute. discriminate.
  - reflexivity.
  - reflexivity.
  - reflexivity.
  - vm_compute. reflexivity.
Defined.

Lemma updateContact_partial_failure_sample :
  exists st,
    @updateContact adaOnly organizationAndNote (initial adaOnly tt)
    = (Ret {| UpdateResponse.success := true;
              UpdateResponse.message := "Updated contact: ID1";
              UpdateResponse.updated_fields := ["organization"] |}, st).
Proof.
  destruct (@updateContact_partial_failure adaOnly organizationAndNote
              (initial adaOnly tt)
              (snd (@getContact adaOnly "ID1" (initial adaOnly tt)))
              {| GetResponse.success := true;
                 GetResponse.message := None;
                 GetResponse.contact :=
                   Some {| Contact.id := "ID1";
                           Contact.name := "Ada Lovelace";
                           Contact.organization := "Analytical Engines";
                           Contact.job_title := EmptyString;
                           Contact.note := EmptyString;
                           Contact.emails := [];
                           Contact.phones := ["555-0100"; "555-0101"];
                           Contact.urls := [] |} |})
    as (contact & fields & st2 & Hcontact & _ & Hupdate & Hscenario & _).
  - vm_compute. reflexivity.
  - reflexivity.
  - injection Hcontact as <-.
    exists st2. rewrite Hupdate.
    rewrite (proj1 (Hscenario "X" "met in London" _ _ _ _
                      eq_refl eq_refl eq_refl eq_refl eq_refl eq_refl eq_refl
                      ltac:(lazy; reflexivity) ltac:(lazy; reflexivity))).
    reflexivity.
Defined.

Lemma searchContacts_query_no_output_sample :
  @searchContacts silent
    {| SearchArgs.query := Some "NoSuchOrg123"; SearchArgs.limit := None |}
    (initial silent tt)
  = (Ret {| SearchResponse.success := true;
            SearchResponse.count := 1;
            SearchResponse.contacts :=
              [ {| SearchHit.name := EmptyString;
                   SearchHit.organization := EmptyString |} ] |},
     reached silent tt [Osascript (searchQueryScript "NoSuchOrg123") (Exited nl)]).
Proof.
  apply (@searchContacts_query_no_output silent "NoSuchOrg123" None
           (initial silent tt) nl tt).
  - reflexivity.
  - cbn. lia.
  - reflexivity.
  - reflexivity.
Defined.

(** * Further properties of the bridge *)

Section Further.

Context {interpreter : Interpreter}.

(** ** The escaper, character by character *)

(** The five chained replacements never escape twice: the result is the
    concatenation, character by character, of what [escapeChar] writes
    for each character of the input. *)
Theorem escape_character_by_character (s : string) :
  escapeForAppleScript s
  = String.concat EmptyString (map escapeChar (list_ascii_of_string s)).
Proof.
  rewrite escapeForAppleScript_one_pass.
  induction s as [|c s IH]; [reflexivity |].
  cbn [escapeOnePass list_ascii_of_string map].
  now rewrite concat_empty_cons, IH.
Qed.

(** Escaping a concatenation is concatenating the escapes: a text
    escaped piece by piece is escaped as a whole. *)
Theorem escape_concatenation (a b : string) :
  escapeForAppleScript (a ++ b) = escapeForAppleScript a ++ escapeForAppleScript b.
Proof. unfold escapeForAppleScript. now rewrite !replaceAll_app. Qed.

Lemma includes_single_cons (c x : ascii) (s : string) :
  JS.includes (String c EmptyString) (String x s)
  = Ascii.eqb c x || JS.includes (String c EmptyString) s.
Proof. cbn [JS.includes JS.startsWith]. now rewrite andb_true_r. Qed.

Lemma includes_single_app (c : ascii) (a b : string) :
  JS.includes (String c EmptyString) (a ++ b)
  = JS.includes (String c EmptyString) a || JS.includes (String c EmptyString) b.
Proof.
  induction a as [|x a IH].
  - reflexivity.
  - cbn [append]. rewrite !includes_single_cons, IH. now rewrite orb_assoc.
Qed.

Lemma escapeChar_no_control (c : ascii) :
  JS.includes (String newline EmptyString) (escapeChar c) = false
  /\ JS.includes (String creturn EmptyString) (escapeChar c) = false
  /\ JS.includes (String tab EmptyString) (escapeChar c) = false.
Proof.
  unfold escapeChar.
  destruct (Ascii.eqb c backslash); [repeat split |].
  destruct (Ascii.eqb c dquote); [repeat split |].
  destruct (Ascii.eqb c newline) eqn:En; [repeat split |].
  destruct (Ascii.eqb c creturn) eqn:Er; [repeat split |].
  destruct (Ascii.eqb c tab) eqn:Et; [repeat split |].
  rewrite !includes_single_cons. cbn [JS.includes JS.startsWith].
  rewrite (Ascii.eqb_sym newline c), (Ascii.eqb_sym creturn c), (Ascii.eqb_sym tab c).
  rewrite En, Er, Et. repeat split.
Qed.

Lemma escapeChar_length (c : ascii) :
  1 <= String.length (escapeChar c) <= 2.
Proof.
  unfold escapeChar.
  repeat match goal with
         | |- context [if ?b then _ else _] => destruct b
         end; cbn; lia.
Qed.

(** The escaped text holds no newline, no carriage return and no tab,
    and is at least as long as the input and at most twice as long. *)
Theorem escape_output_shape (s : string) :
  JS.includes (String newline EmptyString) (escapeForAppleScript s) = false
  /\ JS.includes (String creturn EmptyString) (escapeForAppleScript s) = false
  /\ JS.includes (String tab EmptyString) (escapeForAppleScript s) = false
  /\ String.length s <= String.length (escapeForAppleScript s) <= 2 * String.length s.
Proof.
  rewrite escapeForAppleScript_one_pass.
  induction s as [|c s (Hn & Hr & Ht & Hlen)]; [repeat split; cbn; lia |].
  cbn [escapeOnePass]. rewrite !includes_single_app, Hn, Hr, Ht.
  destruct (escapeChar_no_control c) as (-> & -> & ->).
  rewrite length_append. pose proof (escapeChar_length c).
  repeat split; cbn [String.length]; lia.
Qed.

(** ** Where the literals of a script end *)

Lemma lex_app (a b : string) :
  forall state, lex state (a ++ b) = lex (lex state a) b.
Proof. induction a as [|c a IH]; intros state; [reflexivity | apply IH]. Qed.

Lemma lex_escapeChar (c : ascii) : lex InLiteral (escapeChar c) = InLiteral.
Proof.
  unfold escapeChar.
  destruct (Ascii.eqb c backslash) eqn:Eb; [reflexivity |].
  destruct (Ascii.eqb c dquote) eqn:Eq; [reflexivity |].
  destruct (Ascii.eqb c newline); [reflexivity |].
  destruct (Ascii.eqb c creturn); [reflexivity |].
  destruct (Ascii.eqb c tab); [reflexivity |].
  cbn [lex lexStep]. now rewrite Eb, Eq.
Qed.

Lemma lex_escape (s : string) : lex InLiteral (escapeForAppleScript s) = InLiteral.
Proof.
  rewrite escapeForAppleScript_one_pass.
  induction s as [|c s IH]; [reflexivity |].
  cbn [escapeOnePass]. now rewrite lex_app, lex_escapeChar.
Qed.

Lemma literalsFrom_code_cur (cur s : string) :
  literalsFrom InCode cur s = literalsFrom InCode EmptyString s.
Proof. now destruct s. Qed.

Lemma literalsFrom_app (a : string) :
  forall state cur,
  exists cur',
    forall b, literalsFrom state cur (a ++ b)
              = (literalsFrom state cur a ++ literalsFrom (lex state a) cur' b)%list.
Proof.
  induction a as [|c a IH]; intros state cur.
  - exists cur. intros b. reflexivity.
  - destruct state; cbn [append literalsFrom lex lexStep].
    + destruct (Ascii.eqb c dquote); apply IH.
    + destruct (Ascii.eqb c backslash); [apply IH |].
      destruct (Ascii.eqb c dquote); [| apply IH].
      destruct (IH InCode EmptyString) as [cur' H]. exists cur'. intros b.
      now rewrite H.
    + apply IH.
Qed.

(** After a piece that ends in code, the literals of what follows are
    read on their own. *)
Lemma literals_app (a b : string) :
  lex InCode a = InCode -> literals (a ++ b) = (literals a ++ literals b)%list.
Proof.
  intros Ha. unfold literals.
  destruct (literalsFrom_app a InCode EmptyString) as [cur' H].
  now rewrite H, Ha, (literalsFrom_code_cur cur' b).
Qed.

Lemma literalsFrom_escapeChar (c : ascii) (cur t : string) :
  literalsFrom InLiteral cur (escapeChar c ++ t)
  = literalsFrom InLiteral (cur ++ escapeChar c) t.
Proof.
  unfold escapeChar.
  destruct (Ascii.eqb c backslash) eqn:Eb;
    [cbn; now rewrite !append_assoc |].
  destruct (Ascii.eqb c dquote) eqn:Eq;
    [cbn; now rewrite !append_assoc |].
  destruct (Ascii.eqb c newline); [cbn; now rewrite !append_assoc |].
  destruct (Ascii.eqb c creturn); [cbn; now rewrite !append_assoc |].
  destruct (Ascii.eqb c tab); [cbn; now rewrite !append_assoc |].
  cbn [append literalsFrom]. now rewrite Eb, Eq.
Qed.

(** Inside a literal, the whole escaped text is collected as body: no
    character of it closes the literal. *)
Lemma literalsFrom_escape (s : string) :
  forall cur t,
    literalsFrom InLiteral cur (escapeForAppleScript s ++ t)
    = literalsFrom InLiteral (cur ++ escapeForAppleScript s) t.
Proof.
  rewrite escapeForAppleScript_one_pass.
  induction s as [|c s IH]; intros cur t.
  - cbn. now rewrite append_empty_r.
  - cbn [escapeOnePass]. rewrite append_assoc, literalsFrom_escapeChar, IH.
    now rewrite append_assoc.
Qed.

Lemma literals_quoted_escape (s rest : string) :
  literals (quoted (escapeForAppleScript s) ++ rest)
  = escapeForAppleScript s :: literals rest.
Proof.
  unfold literals, quoted, dq. rewrite !append_assoc.
  cbn [append literalsFrom]. rewrite Ascii.eqb_refl, literalsFrom_escape.
  cbn [append literalsFrom]. now rewrite Ascii.eqb_refl.
Qed.

(** An escaped text spliced between double quotes is read as one
    literal whose body is the whole escaped text, whatever the input: no
    character of the escaped text closes the literal, the quote that
    follows closes it, what comes after is read as code, and the body
    reads back as the text that was escaped. *)
Theorem escaped_literal_closes_where_meant (s rest : string) :
  literals (quoted (escapeForAppleScript s) ++ rest)
  = escapeForAppleScript s :: literals rest
  /\ (forall cur t,
        literalsFrom InLiteral cur (escapeForAppleScript s ++ t)
        = literalsFrom InLiteral (cur ++ escapeForAppleScript s) t)
  /\ lex InCode (quoted (escapeForAppleScript s) ++ rest) = lex InCode rest
  /\ readLiteral (escapeForAppleScript s) = s.
Proof.
  split; [apply literals_quoted_escape |].
  split; [apply literalsFrom_escape |].
  split; [| apply readLiteral_escapeForAppleScript].
  unfold quoted, dq. rewrite !append_assoc. cbn [append lex lexStep].
  rewrite Ascii.eqb_refl, lex_app, lex_escape. cbn [append lex lexStep].
  now rewrite Ascii.eqb_refl.
Qed.

(** ** Scripts whose literals are all closed *)

Lemma neutral_app (a b : string) :
  lex InCode a = InCode -> lex InCode b = InCode -> lex InCode (a ++ b) = InCode.
Proof. intros Ha Hb. now rewrite lex_app, Ha. Qed.

Lemma neutral_quoted (x : string) :
  lex InLiteral x = InLiteral -> lex InCode (quoted x) = InCode.
Proof.
  intros Hx. unfold quoted, dq. cbn [append lex lexStep].
  rewrite Ascii.eqb_refl, lex_app, Hx. cbn [lex lexStep].
  now rewrite Ascii.eqb_refl.
Qed.

Lemma neutral_quoted_escape (s : string) :
  lex InCode (quoted (escapeForAppleScript s)) = InCode.
Proof. apply neutral_quoted, lex_escape. Qed.

Lemma neutral_join (sep : string) (lines : list string) :
  lex InCode sep = InCode ->
  Forall (fun line => lex InCode line = InCode) lines ->
  lex InCode (JS.join sep lines) = InCode.
Proof.
  intros Hsep H. induction H as [|line lines Hline Hrest IH]; [reflexivity |].
  destruct lines as [|l2 lines]; [exact Hline |].
  change (JS.join sep (line :: l2 :: lines))
    with (line ++ sep ++ JS.join sep (l2 :: lines)).
  now repeat apply neutral_app.
Qed.

Lemma neutral_text (lines : list string) :
  Forall (fun line => lex InCode line = InCode) lines ->
  lex InCode (text lines) = InCode.
Proof. apply neutral_join. reflexivity. Qed.

Lemma neutral_concat (pieces : list string) :
  Forall (fun piece => lex InCode piece = InCode) pieces ->
  lex InCode (String.concat EmptyString pieces) = InCode.
Proof.
  intros H. induction H as [|piece pieces Hp Hrest IH]; [reflexivity |].
  rewrite concat_empty_cons. now apply neutral_app.
Qed.

Lemma Forall_indexedFrom {A : Type} (P : string -> Prop) (line : A -> nat -> string)
    (l : list A) :
  (forall x i, P (line x i)) -> forall from, Forall P (indexedFrom from line l).
Proof.
  intros H. induction l as [|x l IH]; intros from; cbn [indexedFrom]; constructor;
    [apply H | apply IH].
Qed.

Lemma lex_digits (d : Decimal.uint) :
  lex InLiteral (NilEmpty.string_of_uint d) = InLiteral.
Proof. induction d as [| d IH | d IH | d IH | d IH | d IH | d IH | d IH | d IH | d IH | d IH];
  [reflexivity | ..]; exact IH. Qed.

Lemma lex_number (n : Z) : lex InLiteral (JS.numberToString n) = InLiteral.
Proof.
  unfold JS.numberToString, NilZero.string_of_int, NilZero.string_of_uint.
  destruct (Z.to_int n) as [d | d]; destruct d; try reflexivity;
    cbn [lex lexStep]; apply lex_digits.
Qed.

Lemma lex_emailLabel (i : nat) : lex InLiteral (emailLabel i) = InLiteral.
Proof.
  unfold emailLabel. destruct (Nat.eqb i 0); [reflexivity |].
  destruct (Nat.eqb i 1); [reflexivity |]. rewrite lex_app. apply lex_number.
Qed.

Lemma lex_phoneLabel (i : nat) : lex InLiteral (phoneLabel i) = InLiteral.
Proof.
  unfold phoneLabel. destruct (Nat.eqb i 0); [reflexivity |].
  destruct (Nat.eqb i 1); [reflexivity |]. rewrite lex_app. apply lex_number.
Qed.

Lemma neutral_properties (lbl val : string) :
  lex InLiteral lbl = InLiteral -> lex InLiteral val = InLiteral ->
  lex InCode (properties lbl val) = InCode.
Proof.
  intros Hl Hv. unfold properties.
  apply neutral_app; [reflexivity |].
  apply neutral_app; [now apply neutral_quoted |].
  apply neutral_app; [reflexivity |].
  apply neutral_app; [now apply neutral_quoted | reflexivity].
Qed.

Lemma literalSafe_lex (x : string) :
  literalSafe x = true -> lex InLiteral x = InLiteral.
Proof. unfold literalSafe. now destruct (lex InLiteral x). Qed.

Lemma wellQuoted_lex (script : string) :
  lex InCode script = InCode -> wellQuoted script = true.
Proof. unfold wellQuoted. now intros ->. Qed.

(** Closes goals [lex InCode t = InCode] for a text put together from
    fixed pieces, quoted escaped texts and entries of a list. *)
Ltac neutral :=
  repeat first
    [ reflexivity
    | assumption
    | apply neutral_quoted_escape
    | apply neutral_properties
    | apply lex_escape
    | apply lex_emailLabel
    | apply lex_phoneLabel
    | apply neutral_quoted; assumption
    | apply neutral_text
    | apply neutral_concat
    | apply Forall_indexedFrom; intros
    | apply Forall_cons
    | apply Forall_nil
    | apply neutral_app ].

(** Pieces read from code to code, and what they hold *)

Lemma reads_app (a b : string) (l m : list string) :
  reads a l -> reads b m -> reads (a ++ b) (l ++ m)%list.
Proof.
  intros [Hl Ha] [Hm Hb]. split.
  - now rewrite literals_app, Hl, Hm.
  - now apply neutral_app.
Qed.

Lemma reads_eq (a : string) (l m : list string) : reads a l -> l = m -> reads a m.
Proof. now intros H <-. Qed.

Lemma reads_quoted_escape (s : string) :
  reads (quoted (escapeForAppleScript s)) [escapeForAppleScript s].
Proof.
  split; [| apply neutral_quoted_escape].
  rewrite <- (append_empty_r (quoted (escapeForAppleScript s))).
  apply literals_quoted_escape.
Qed.

Lemma plainText_app (a b : string) :
  plainText a = true -> plainText b = true -> plainText (a ++ b) = true.
Proof.
  intros Ha Hb. induction a as [|c a IH]; [exact Hb |].
  cbn [append plainText] in *. apply andb_prop in Ha as [Hc Ha].
  now rewrite Hc, IH.
Qed.

Lemma plainText_digits (d : Decimal.uint) :
  plainText (NilEmpty.string_of_uint d) = true.
Proof.
  induction d as [| d IH | d IH | d IH | d IH | d IH | d IH | d IH | d IH | d IH | d IH];
    [reflexivity | ..]; exact IH.
Qed.

Lemma plainText_number (n : Z) : plainText (JS.numberToString n) = true.
Proof.
  unfold JS.numberToString, NilZero.string_of_int, NilZero.string_of_uint.
  destruct (Z.to_int n) as [d | d]; destruct d; try reflexivity;
    cbn [plainText]; apply plainText_digits.
Qed.

Lemma plainText_emailLabel (i : nat) : plainText (emailLabel i) = true.
Proof.
  unfold emailLabel. destruct (Nat.eqb i 0); [reflexivity |].
  destruct (Nat.eqb i 1); [reflexivity |].
  apply plainText_app; [reflexivity | apply plainText_number].
Qed.

Lemma plainText_phoneLabel (i : nat) : plainText (phoneLabel i) = true.
Proof.
  unfold phoneLabel. destruct (Nat.eqb i 0); [reflexivity |].
  destruct (Nat.eqb i 1); [reflexivity |].
  apply plainText_app; [reflexivity | apply plainText_number].
Qed.

(** Inside a literal, a text with no double quote and no backslash is
    collected whole and leaves the literal open. *)
Lemma plainText_body (x : string) :
  plainText x = true ->
  (forall cur t, literalsFrom InLiteral cur (x ++ t)
                 = literalsFrom InLiteral (cur ++ x) t)
  /\ lex InLiteral x = InLiteral.
Proof.
  induction x as [|c x IH]; intros H.
  - split; [intros cur t; cbn; now rewrite append_empty_r | reflexivity].
  - cbn [plainText] in H. apply andb_prop in H as [Hc Hx].
    apply andb_prop in Hc as [Hq Hb]. apply negb_true_iff in Hq, Hb.
    destruct (IH Hx) as [Hbody Hlex]. split.
    + intros cur t. cbn [append literalsFrom]. rewrite Hb, Hq, Hbody.
      now rewrite append_assoc.
    + cbn [lex lexStep]. now rewrite Hb, Hq.
Qed.

Lemma literals_quoted_plain (x rest : string) :
  plainText x = true -> literals (quoted x ++ rest) = x :: literals rest.
Proof.
  intros Hx. destruct (plainText_body x Hx) as [Hbody _].
  unfold literals, quoted, dq. rewrite !append_assoc.
  cbn [append literalsFrom]. rewrite Ascii.eqb_refl, Hbody.
  cbn [append literalsFrom]. now rewrite Ascii.eqb_refl.
Qed.

Lemma reads_quoted_plain (x : string) : plainText x = true -> reads (quoted x) [x].
Proof.
  intros Hx. split.
  - rewrite <- (append_empty_r (quoted x)). now apply literals_quoted_plain.
  - apply neutral_quoted. now destruct (plainText_body x Hx).
Qed.

(** A piece without a double quote is code and holds no literal. *)
Lemma reads_code (a : string) :
  JS.includes dq a = false -> reads a [].
Proof.
  unfold dq. intros H. split.
  - unfold literals. induction a as [|c a IH]; [reflexivity |].
    rewrite includes_single_cons in H. apply orb_false_elim in H as [Hc Ha].
    cbn [literalsFrom]. rewrite Ascii.eqb_sym, Hc. now apply IH.
  - induction a as [|c a IH]; [reflexivity |].
    rewrite includes_single_cons in H. apply orb_false_elim in H as [Hc Ha].
    cbn [lex lexStep]. rewrite Ascii.eqb_sym, Hc. now apply IH.
Qed.

Lemma reads_tellContacts : reads tellContacts ["Contacts"].
Proof. split; reflexivity. Qed.

Lemma reads_text (lines : list string) (found : list (list string)) :
  Forall2 reads lines found -> reads (text lines) (List.concat found).
Proof.
  intros H. induction H as [|line l lines found Hline Hrest IH].
  - split; reflexivity.
  - destruct lines as [|line2 lines].
    + inversion Hrest; subst. cbn [List.concat]. rewrite app_nil_r. exact Hline.
    + change (text (line :: line2 :: lines))
        with (line ++ nl ++ text (line2 :: lines)).
      cbn [List.concat]. apply reads_app; [exact Hline |].
      change (List.concat found) with ([] ++ List.concat found)%list.
      apply reads_app; [| exact IH]. apply reads_code. reflexivity.
Qed.

Lemma reads_entries {A : Type} (line : A -> nat -> string)
    (found : A -> nat -> list string) (l : list A) :
  (forall x i, reads (line x i) (found x i)) ->
  forall from,
    reads (String.concat EmptyString (indexedFrom from line l)) (entriesFrom from found l).
Proof.
  intros H. induction l as [|x l IH]; intros from.
  - split; reflexivity.
  - cbn [indexedFrom entriesFrom]. rewrite concat_empty_cons.
    apply reads_app; [apply H | apply IH].
Qed.

(** Builds [reads piece ?found] for a text put together from fixed
    pieces and quoted texts. *)
Ltac reads_piece :=
  repeat first
    [ apply reads_tellContacts
    | apply reads_quoted_escape
    | apply reads_quoted_plain; first [ reflexivity
                                      | apply plainText_emailLabel
                                      | apply plainText_phoneLabel
                                      | assumption ]
    | apply reads_code; reflexivity
    | eapply reads_app ].

Ltac reads_lines :=
  repeat first [ apply Forall2_nil | eapply Forall2_cons; [reads_piece |] ].

Lemma reads_createHeader (name organization job_title note : string) :
  reads (createHeader name organization job_title note)
    ("Contacts"
     :: scalarLiterals (firstName name) ++ scalarLiterals (lastName name)
     ++ scalarLiterals organization ++ scalarLiterals job_title
     ++ scalarLiterals note)%list.
Proof.
  unfold createHeader, setIfNotEmpty. cbn [List.concat app].
  eapply reads_eq; [eapply reads_text; reads_lines | reflexivity].
Qed.

Lemma reads_properties (lbl val : string) (l v : list string) :
  reads (quoted lbl) l -> reads (quoted val) v -> reads (properties lbl val) (l ++ v)%list.
Proof.
  intros Hl Hv. unfold properties.
  eapply reads_eq.
  - eapply reads_app; [apply reads_code; reflexivity |].
    eapply reads_app; [exact Hl |].
    eapply reads_app; [apply reads_code; reflexivity |].
    eapply reads_app; [exact Hv | apply reads_code; reflexivity].
  - cbn [app]. now rewrite app_nil_r.
Qed.

(** Whatever the name, organization, job title, note, emails, phones and
    urls are, the literals of the creation script are exactly the ones
    it is meant to hold, in order: the application name; for each of
    first name, last name, organization, job title and note the escaped
    text, the empty literal and the escaped text again; for each email
    and phone its positional label and the escaped entry; for each url
    its escaped label and escaped value.  So no text given by the caller
    ends a literal early, and every literal is closed. *)
Theorem createScript_well_quoted (name organization job_title : string)
    (emails phones : list string) (urls : list Url.t) (note : string) :
  literals (createScript name organization job_title emails phones urls note)
  = createLiterals name organization job_title emails phones urls note
  /\ wellQuoted (createScript name organization job_title emails phones urls note) = true.
Proof.
  assert (H : reads (createScript name organization job_title emails phones urls note)
                    (createLiterals name organization job_title emails phones urls note)).
  { rewrite createScript_entries. unfold indexed.
    eapply reads_eq.
    - eapply reads_app; [apply reads_createHeader |].
      eapply reads_app.
      { apply (reads_entries createEmailLine
                 (fun email index => [emailLabel index; escapeForAppleScript email])).
        intros email i. unfold createEmailLine.
        eapply reads_eq.
        - eapply reads_app; [apply reads_code; reflexivity |].
          eapply reads_app; [apply reads_code; reflexivity |].
          apply reads_properties;
            [apply reads_quoted_plain, plainText_emailLabel | apply reads_quoted_escape].
        - reflexivity. }
      eapply reads_app.
      { apply (reads_entries createPhoneLine
                 (fun phone index => [phoneLabel index; escapeForAppleScript phone])).
        intros phone i. unfold createPhoneLine.
        eapply reads_eq.
        - eapply reads_app; [apply reads_code; reflexivity |].
          eapply reads_app; [apply reads_code; reflexivity |].
          apply reads_properties;
            [apply reads_quoted_plain, plainText_phoneLabel | apply reads_quoted_escape].
        - reflexivity. }
      eapply reads_app; [| apply reads_code; reflexivity].
      apply (reads_entries (fun url (_ : nat) => createUrlLine url)
               (fun url (_ : nat) =>
                  [ escapeForAppleScript (Url.label url);
                    escapeForAppleScript (Url.value url) ])).
      intros url i. unfold createUrlLine.
      eapply reads_eq.
      + eapply reads_app; [apply reads_code; reflexivity |].
        eapply reads_app; [apply reads_code; reflexivity |].
        apply reads_properties; apply reads_quoted_escape.
      + reflexivity.
    - unfold createLiterals. cbn [app]. rewrite app_nil_r, <- !app_assoc. reflexivity. }
  destruct H as [Hlits Hlex]. split; [exact Hlits | now apply wellQuoted_lex].
Qed.

(** When the identifier the store gave holds no double quote and no
    backslash, every script of an update and every list script of a
    fetch has all its literals closed, whatever the caller supplies. *)
Theorem update_scripts_well_quoted (contactId : string) :
  literalSafe contactId = true ->
  (forall name, wellQuoted (nameScript contactId name) = true)
  /\ (forall organization, wellQuoted (organizationScript contactId organization) = true)
  /\ (forall job_title, wellQuoted (jobTitleScript contactId job_title) = true)
  /\ (forall note, wellQuoted (noteScript contactId note) = true)
  /\ wellQuoted (clearUrlScript contactId) = true
  /\ wellQuoted (clearEmailScript contactId) = true
  /\ wellQuoted (clearPhoneScript contactId) = true
  /\ (forall urls, wellQuoted (addUrlScript contactId urls) = true)
  /\ (forall emails, wellQuoted (addEmailScript contactId emails) = true)
  /\ (forall phones, wellQuoted (addPhoneScript contactId phones) = true)
  /\ wellQuoted (emailScript contactId) = true
  /\ wellQuoted (phoneScript contactId) = true
  /\ wellQuoted (urlScript contactId) = true.
Proof.
  intros Hid. apply literalSafe_lex in Hid.
  assert (Htarget : lex InCode (targetPersonLine contactId) = InCode).
  { unfold targetPersonLine. apply neutral_app; [reflexivity |].
    now apply neutral_quoted. }
  assert (Hheader : lex InCode (addHeader contactId) = InCode).
  { unfold addHeader. neutral. }
  repeat match goal with |- _ /\ _ => split end; intros; apply wellQuoted_lex.
  - unfold nameScript. neutral.
  - unfold organizationScript. neutral.
  - unfold jobTitleScript. neutral.
  - unfold noteScript. neutral.
  - unfold clearUrlScript, clearScript. neutral.
  - unfold clearEmailScript, clearScript. neutral.
  - unfold clearPhoneScript, clearScript. neutral.
  - rewrite addUrlScript_entries. unfold addFooter, indexed, addUrlLine. neutral.
  - rewrite addEmailScript_entries. unfold addFooter, indexed, addEmailLine. neutral.
  - rewrite addPhoneScript_entries. unfold addFooter, indexed, addPhoneLine. neutral.
  - unfold emailScript. neutral.
  - unfold phoneScript. neutral.
  - unfold urlScript. neutral.
Qed.



(** ** Splits that give the pieces back *)

Lemma startsWith_app_true (p s t : string) :
  JS.startsWith p s = true -> JS.startsWith p (s ++ t) = true.
Proof.
  intros H. destruct (startsWith_prefix _ _ H) as [u ->].
  rewrite append_assoc. apply startsWith_app.
Qed.

Lemma startsWith_app_long (p : string) :
  forall s t, String.length p <= String.length s ->
              JS.startsWith p (s ++ t) = JS.startsWith p s.
Proof.
  induction p as [|a p IH]; intros s t Hlen; [reflexivity |].
  destruct s as [|b s]; [cbn in Hlen; lia |].
  cbn [append JS.startsWith]. rewrite IH by (cbn in Hlen; lia). reflexivity.
Qed.

(** A split cuts at the first occurrence of the separator. *)
Lemma splitFrom_first (sep a b cur : string) :
  sep <> EmptyString ->
  freeBefore sep a = true ->
  JS.splitFrom sep 0 cur (a ++ sep ++ b)
  = (cur ++ a) :: JS.splitFrom sep 0 EmptyString b.
Proof.
  intros Hsep. unfold freeBefore. revert cur.
  induction a as [|x a IH]; intros cur Ha.
  - destruct sep as [|y sep']; [congruence |].
    cbn [append]. cbn [JS.splitFrom].
    change (String y (sep' ++ b)) with (String y sep' ++ b).
    rewrite startsWith_app. cbn [String.length]. rewrite Nat.sub_1_r. cbn [Nat.pred].
    now rewrite splitFrom_skip, append_empty_r.
  - cbn [matchFree] in Ha. apply andb_prop in Ha as [Hhead Ha].
    apply negb_true_iff in Hhead.
    change ((String x a) ++ sep ++ b) with (String x (a ++ sep ++ b)).
    cbn [JS.splitFrom].
    change (String x (a ++ sep ++ b)) with (String x a ++ sep ++ b).
    rewrite <- append_assoc, startsWith_app_long, Hhead
      by (rewrite length_append; lia).
    rewrite IH by exact Ha. now rewrite append_assoc.
Qed.

Lemma splitFrom_whole (sep a cur : string) :
  JS.includes sep a = false -> JS.splitFrom sep 0 cur a = [cur ++ a].
Proof.
  revert cur. induction a as [|x a IH]; intros cur H.
  - cbn. now rewrite append_empty_r.
  - cbn [JS.includes] in H. apply orb_false_elim in H as [Hhead Hrest].
    cbn [JS.splitFrom]. rewrite Hhead, IH by exact Hrest.
    now rewrite append_assoc.
Qed.

Lemma freeBefore_includes (sep a : string) :
  sep <> EmptyString -> freeBefore sep a = true -> JS.includes sep a = false.
Proof.
  intros Hsep. unfold freeBefore. induction a as [|x a IH]; intros Ha.
  - destruct sep; [congruence | reflexivity].
  - cbn [matchFree] in Ha. apply andb_prop in Ha as [Hhead Ha].
    apply negb_true_iff in Hhead. cbn [JS.includes]. rewrite (IH Ha), orb_false_r.
    destruct (JS.startsWith sep (String x a)) eqn:E; [| reflexivity].
    now rewrite (startsWith_app_true _ _ sep E) in Hhead.
Qed.

(** Splitting a joined list gives the list back when each element lets
    the separator first occur where the join puts it. *)
Lemma split_join (sep : string) (items : list string) :
  sep <> EmptyString ->
  items <> [] ->
  Forall (fun x => freeBefore sep x = true) items ->
  JS.split sep (JS.join sep items) = items.
Proof.
  intros Hsep Hne H. unfold JS.split.
  induction H as [|x items Hx Hrest IH]; [congruence |].
  destruct items as [|y items].
  - cbn [JS.join]. now rewrite splitFrom_whole by now apply freeBefore_includes.
  - change (JS.join sep (x :: y :: items)) with (x ++ sep ++ JS.join sep (y :: items)).
    rewrite splitFrom_first by assumption. cbn [append].
    now rewrite IH by discriminate.
Qed.

Lemma matchFree_single (c : ascii) (a : string) :
  JS.includes (String c EmptyString) a = false ->
  freeBefore (String c EmptyString) a = true.
Proof.
  unfold freeBefore. induction a as [|x a IH]; intros H; [reflexivity |].
  rewrite includes_single_cons in H. apply orb_false_elim in H as [Hx Ha].
  cbn [matchFree append JS.startsWith]. now rewrite Hx, IH.
Qed.

Lemma matchFree_comma_space (a : string) :
  JS.includes ", " a = false -> freeBefore ", " a = true.
Proof.
  unfold freeBefore. induction a as [|x a IH]; intros H; [reflexivity |].
  cbn [JS.includes] in H. apply orb_false_elim in H as [Hhead Hrest].
  cbn [matchFree]. rewrite IH by exact Hrest. rewrite andb_true_r.
  apply negb_true_iff.
  destruct a as [|y a].
  - cbn [append JS.startsWith]. destruct (Ascii.eqb ","%char x); reflexivity.
  - cbn [append JS.startsWith] in Hhead |- *. exact Hhead.
Qed.

Lemma first_char (c : ascii) (s : string) :
  JS.includes (String c EmptyString) s = true ->
  exists a b, s = a ++ String c EmptyString ++ b
              /\ JS.includes (String c EmptyString) a = false.
Proof.
  induction s as [|x s IH]; intros H; [discriminate |].
  rewrite includes_single_cons in H.
  destruct (Ascii.eqb c x) eqn:Hx.
  - apply Ascii.eqb_eq in Hx. subst x. now exists EmptyString, s.
  - destruct (IH H) as (a & b & -> & Ha).
    exists (String x a), b. split; [reflexivity |].
    now rewrite includes_single_cons, Hx.
Qed.

(** ** The name split *)

(** The split of a display name into first and last name loses only the
    white space around the name: with a space in the trimmed name, the
    first name is what stands before the first space and the last name
    all that follows it, later spaces kept; without a space the whole
    trimmed name is the first name and the last name is empty. *)
Theorem name_split_recombines (name : string) :
  JS.includes " " (firstName name) = false
  /\ (if JS.includes " " (JS.trim name)
      then firstName name ++ " " ++ lastName name = JS.trim name
      else firstName name = JS.trim name /\ lastName name = EmptyString).
Proof.
  unfold firstName, lastName, nameParts, JS.split.
  destruct (JS.includes " " (JS.trim name)) eqn:E.
  - destruct (first_char _ _ E) as (a & b & -> & Ha).
    rewrite (splitFrom_first " " a b EmptyString)
      by (try discriminate; now apply matchFree_single).
    cbn [append nth_error]. rewrite orElse_some. split; [exact Ha |].
    pose proof (splitFrom_not_nil " " 0 EmptyString b) as Hne.
    destruct (JS.splitFrom " " 0 EmptyString b) as [|p ps] eqn:Hsplit; [congruence |].
    cbn [List.length Nat.ltb Nat.leb skipn]. rewrite <- Hsplit.
    change (JS.splitFrom " " 0 EmptyString b) with (JS.split " " b).
    rewrite join_split by discriminate. reflexivity.
  - rewrite (splitFrom_whole " " (JS.trim name) EmptyString) by exact E.
    cbn [append nth_error List.length Nat.ltb Nat.leb].
    rewrite orElse_some. repeat split. exact E.
Qed.

(** ** What the parsers give back *)

Lemma truthy_app_l (a b : string) : JS.truthy a = true -> JS.truthy (a ++ b) = true.
Proof. destruct a; [discriminate | reflexivity]. Qed.

Lemma truthy_app_r (a b : string) : JS.truthy b = true -> JS.truthy (a ++ b) = true.
Proof. destruct a; [easy | reflexivity]. Qed.

Lemma truthy_join (sep x : string) (rest : list string) :
  JS.truthy x = true -> JS.truthy (JS.join sep (x :: rest)) = true.
Proof. intros H. destruct rest; [exact H | now apply truthy_app_l]. Qed.

(** A comma-separated list printed by the interpreter is parsed back to
    the same list when no element holds the separator, with the one
    exception of the list whose only element is the empty text, which
    prints as nothing. *)
Theorem parseList_round_trip (items : list string) :
  items <> [EmptyString] ->
  Forall (fun x => JS.includes ", " x = false) items ->
  parseList (renderList items) = items.
Proof.
  intros Hne Hfree. unfold parseList, renderList.
  destruct items as [|x rest]; [reflexivity |].
  assert (Htruthy : JS.truthy (JS.join ", " (x :: rest)) = true).
  { destruct rest as [|y rest].
    - destruct x; [congruence | reflexivity].
    - change (JS.join ", " (x :: y :: rest))
        with (x ++ ", " ++ JS.join ", " (y :: rest)).
      apply truthy_app_r. reflexivity. }
  rewrite Htruthy. apply split_join; try discriminate.
  eapply Forall_impl; [| exact Hfree]. intros a. apply matchFree_comma_space.
Qed.

Lemma parseUrlEntry_renderUrl (url : Url.t) :
  colonFree (Url.label url) = true -> parseUrlEntry (renderUrl url) = url.
Proof.
  intros H. unfold renderUrl. rewrite parseUrlEntry_first_colon by exact H.
  now destruct url.
Qed.

(** The url list the interpreter prints for a contact is parsed back to
    the same urls, labels and values, when no label holds a colon and no
    entry holds the list separator; colons in a value are kept. *)
Theorem parseUrls_round_trip (urls : list Url.t) :
  Forall (fun url => urlSafe url = true) urls ->
  parseUrls (renderList (map renderUrl urls)) = urls.
Proof.
  intros Hsafe. unfold parseUrls, renderList.
  destruct urls as [|u rest]; [reflexivity |].
  cbn [map]. rewrite truthy_join.
  2:{ unfold renderUrl. apply truthy_app_r. reflexivity. }
  change (renderUrl u :: map renderUrl rest) with (map renderUrl (u :: rest)).
  rewrite split_join.
  - rewrite map_map. rewrite <- (map_id (u :: rest)) at 2.
    apply map_ext_in. intros url Hin.
    rewrite Forall_forall in Hsafe. specialize (Hsafe url Hin).
    unfold urlSafe in Hsafe. apply andb_prop in Hsafe as [Hlabel _].
    now apply parseUrlEntry_renderUrl.
  - discriminate.
  - discriminate.
  - apply Forall_map. eapply Forall_impl; [| exact Hsafe].
    intros url Hurl. unfold urlSafe in Hurl. apply andb_prop in Hurl as [_ Hentry].
    apply matchFree_comma_space. now apply negb_true_iff in Hentry.
Qed.

(** The five fields of the flattened record are read back as they were
    printed when the first four hold no vertical bar; the note is read
    up to its first vertical bar, so a note with a bar loses what
    follows it and a note without one comes back whole. *)
Theorem recordField_round_trip (id name organization job_title note : string) :
  JS.includes "|" id = false ->
  JS.includes "|" name = false ->
  JS.includes "|" organization = false ->
  JS.includes "|" job_title = false ->
  let result := renderRecord id name organization job_title note in
  recordField result 0 = id
  /\ recordField result 1 = name
  /\ recordField result 2 = organization
  /\ recordField result 3 = job_title
  /\ recordField result 4 = recordField note 0
  /\ (if JS.includes "|" note
      then exists kept lost,
          note = kept ++ "|" ++ lost /\ recordField result 4 = kept
      else recordField result 4 = note).
Proof.
  intros Hid Hname Horg Htitle result. subst result.
  unfold recordField at 1 2 3 4 5 7 8, renderRecord, JS.split.
  rewrite (splitFrom_first "|" id) by (try discriminate; now apply matchFree_single).
  rewrite (splitFrom_first "|" name) by (try discriminate; now apply matchFree_single).
  rewrite (splitFrom_first "|" organization)
    by (try discriminate; now apply matchFree_single).
  rewrite (splitFrom_first "|" job_title)
    by (try discriminate; now apply matchFree_single).
  cbn [append nth_error]. rewrite !orElse_some.
  repeat split.
  destruct (JS.includes "|" note) eqn:E.
  - destruct (first_char _ _ E) as (kept & lost & -> & Hkept).
    exists kept, lost. split; [reflexivity |].
    rewrite (splitFrom_first "|" kept) by (try discriminate; now apply matchFree_single).
    cbn [append nth_error]. apply orElse_some.
  - rewrite (splitFrom_whole "|" note) by exact E.
    cbn [append nth_error]. apply orElse_some.
Qed.

(** ** The recent-contacts parser *)

Lemma trimStart_keeps (c : ascii) (b : string) :
  JS.isWhiteSpace c = false ->
  forall a, exists a', JS.trimStart (a ++ String c b) = a' ++ String c b.
Proof.
  intros Hc. induction a as [|x a [a' IH]].
  - exists EmptyString. cbn [append JS.trimStart]. now rewrite Hc.
  - cbn [append JS.trimStart]. destruct (JS.isWhiteSpace x).
    + now exists a'.
    + now exists (String x a).
Qed.

Lemma trimEnd_keeps (c : ascii) (b : string) :
  JS.isWhiteSpace c = false ->
  forall a, JS.truthy (JS.trimEnd (a ++ String c b)) = true.
Proof.
  intros Hc. induction a as [|x a IH].
  - cbn [append JS.trimEnd]. destruct (JS.trimEnd b); [now rewrite Hc | reflexivity].
  - cbn [append JS.trimEnd].
    destruct (JS.trimEnd (a ++ String c b)); [discriminate | reflexivity].
Qed.

(** A text with a character that is not white space does not trim to
    nothing. *)
Lemma trim_truthy (a b : string) (c : ascii) :
  JS.isWhiteSpace c = false -> JS.truthy (JS.trim (a ++ String c b)) = true.
Proof.
  intros Hc. unfold JS.trim.
  destruct (trimStart_keeps c b Hc a) as [a' ->]. now apply trimEnd_keeps.
Qed.

Lemma substring_whole (s : string) : String.substring 0 (String.length s) s = s.
Proof. induction s as [|c s IH]; [reflexivity | cbn; now rewrite IH]. Qed.

Lemma dropLeadingComma_separator (x : string) : dropLeadingComma (", " ++ x) = x.
Proof.
  unfold dropLeadingComma. cbn [append JS.startsWith Ascii.eqb Bool.eqb andb].
  cbn [String.length Nat.sub String.substring]. rewrite Nat.sub_0_r.
  apply substring_whole.
Qed.

Lemma join_as_concat (sep : string) (rest : list string) :
  forall x, JS.join sep (x :: rest)
            = x ++ String.concat EmptyString (map (fun y => sep ++ y) rest).
Proof.
  induction rest as [|y rest IH]; intros x.
  - cbn. now rewrite append_empty_r.
  - change (JS.join sep (x :: y :: rest)) with (x ++ sep ++ JS.join sep (y :: rest)).
    cbn [map]. rewrite concat_empty_cons, IH. now rewrite append_assoc.
Qed.

Lemma split_terminated (sep : string) (pieces : list string) :
  sep <> EmptyString ->
  Forall (fun piece => freeBefore sep piece = true) pieces ->
  JS.split sep (String.concat EmptyString (map (fun piece => piece ++ sep) pieces))
  = (pieces ++ [EmptyString])%list.
Proof.
  intros Hsep H. unfold JS.split.
  induction H as [|piece pieces Hp Hrest IH]; [reflexivity |].
  cbn [map]. rewrite concat_empty_cons, append_assoc.
  rewrite splitFrom_first by assumption. cbn [append app]. now rewrite IH.
Qed.

Lemma renderRecent_pieces (hits : list RecentHit.t) :
  renderRecent hits
  = String.concat EmptyString (map (fun piece => piece ++ "###END###") (recentPieces hits)).
Proof.
  unfold renderRecent, renderList. destruct hits as [|hit rest]; [reflexivity |].
  cbn [map recentPieces]. rewrite join_as_concat, concat_empty_cons.
  f_equal. rewrite !map_map. reflexivity.
Qed.

Lemma recentSafe_parts (hit : RecentHit.t) :
  recentSafe hit = true ->
  freeBefore "###END###" (", " ++ renderRecentBody hit) = true
  /\ freeBefore "###END###" (renderRecentBody hit) = true
  /\ freeBefore "###SPLIT###" (RecentHit.name hit) = true
  /\ JS.includes "###SPLIT###" (RecentHit.modification_date hit) = false.
Proof.
  unfold recentSafe. intros H.
  apply andb_prop in H as [H Hdate]. apply andb_prop in H as [Hend Hname].
  apply negb_true_iff in Hdate.
  split; [exact Hend |]. split; [| split; assumption].
  unfold freeBefore in *. cbn [append matchFree] in Hend.
  apply andb_prop in Hend as [_ Hend]. apply andb_prop in Hend as [_ Hend].
  exact Hend.
Qed.

Lemma body_truthy (prefix : string) (hit : RecentHit.t) :
  JS.truthy (JS.trim (prefix ++ renderRecentBody hit)) = true.
Proof.
  unfold renderRecentBody. rewrite <- !append_assoc.
  change "###SPLIT###" with (String "#" "##SPLIT###").
  rewrite append_assoc. apply trim_truthy. reflexivity.
Qed.

Lemma parse_body (hit : RecentHit.t) :
  recentSafe hit = true ->
  let parts := JS.split "###SPLIT###" (renderRecentBody hit) in
  {| RecentHit.name := JS.orElse (nth_error parts 0) EmptyString;
     RecentHit.modification_date := JS.orElse (nth_error parts 1) EmptyString |}
  = hit.
Proof.
  intros Hsafe. destruct (recentSafe_parts hit Hsafe) as (_ & _ & Hname & Hdate).
  unfold renderRecentBody, JS.split. cbv zeta.
  rewrite splitFrom_first by (try discriminate; exact Hname).
  rewrite splitFrom_whole by exact Hdate.
  cbn [append nth_error]. rewrite !orElse_some. now destruct hit.
Qed.

(** The list of people the recent-contacts script prints is parsed back
    to the same names and dates, cut to the limit, when the sentinels
    first occur where the script puts them and the first name does not
    begin with a comma and a space. *)
Theorem parseRecent_round_trip (hits : list RecentHit.t) (limit : Z) :
  Forall (fun hit => recentSafe hit = true) hits ->
  match hits with
  | [] => True
  | hit :: _ => JS.startsWith ", " (renderRecentBody hit) = false
  end ->
  parseRecent (renderRecent hits) limit = JS.slice0 hits limit.
Proof.
  intros Hsafe Hfirst. unfold parseRecent.
  rewrite renderRecent_pieces, split_terminated; [| discriminate |].
  2:{ destruct Hsafe as [|hit rest Hhit Hrest]; cbn [recentPieces]; constructor.
      - now destruct (recentSafe_parts hit Hhit) as (_ & H & _).
      - apply Forall_map. eapply Forall_impl; [| exact Hrest].
        intros h Hh. now destruct (recentSafe_parts h Hh) as (H & _). }
  rewrite filter_app. cbn [filter JS.trim JS.trimStart JS.trimEnd JS.truthy].
  rewrite app_nil_r. f_equal.
  destruct Hsafe as [|hit rest Hhit Hrest]; [reflexivity |].
  cbn [recentPieces filter].
  pose proof (body_truthy EmptyString hit) as Hbody. cbn [append] in Hbody.
  rewrite Hbody. cbn [map]. f_equal.
  - unfold dropLeadingComma. rewrite Hfirst. now apply parse_body.
  - induction Hrest as [|h rest' Hh Hrest' IH]; [reflexivity |].
    cbn [map filter]. rewrite body_truthy. cbn [map].
    rewrite dropLeadingComma_separator. f_equal; [now apply parse_body | exact IH].
Qed.

(** ** Search and recent contacts *)

Lemma slice0_length {A : Type} (l : list A) (limit : Z) :
  (0 <= limit)%Z -> (Z.of_nat (List.length (JS.slice0 l limit)) <= limit)%Z.
Proof.
  intros H. unfold JS.slice0. destruct (Z.ltb_spec limit 0); [lia |].
  pose proof (firstn_le_length (Z.to_nat limit) l). rewrite length_firstn. lia.
Qed.

Lemma toHits_shape (names : list string) :
  List.length (toHits names) = List.length names
  /\ Forall (fun hit => SearchHit.organization hit = EmptyString) (toHits names).
Proof.
  unfold toHits. split; [apply length_map |].
  apply Forall_map. now apply Forall_forall.
Qed.

(** Whatever the interpreter prints, a search that returns reports
    [success], counts the contacts it lists, lists no more than a limit
    that is not negative, and gives every contact an empty
    organization: only names come back. *)
Theorem searchContacts_result_shape (args : SearchArgs.t) (st st' : State)
    (response : SearchResponse.t) :
  searchContacts args st = (Ret response, st') ->
  (0 <= withDefault 20 (SearchArgs.limit args))%Z ->
  SearchResponse.success response = true
  /\ SearchResponse.count response = List.length (SearchResponse.contacts response)
  /\ (Z.of_nat (SearchResponse.count response)
      <= withDefault 20 (SearchArgs.limit args))%Z
  /\ Forall (fun hit => SearchHit.organization hit = EmptyString)
            (SearchResponse.contacts response).
Proof.
  intros Hrun Hlimit. unfold searchContacts, tryCatch, bind, ret, throw in Hrun.
  destruct (JS.truthy (withDefault EmptyString (SearchArgs.query args)));
    match type of Hrun with
    | context [executeAppleScript ?s st] =>
        destruct (executeAppleScript s st) as [[result | e] s1]
    end; try discriminate; injection Hrun as <- _;
    cbn [SearchResponse.success SearchResponse.count SearchResponse.contacts];
    match goal with
    | |- context [toHits ?names] => destruct (toHits_shape names) as [Hlen Horg]
    end;
    (split; [reflexivity |]); (split; [reflexivity |]); (split; [| exact Horg]);
    rewrite Hlen.
  - now apply slice0_length.
  - destruct (JS.truthy result); [now apply slice0_length | cbn; lia].
Qed.

(** The window of days and the type of date a caller asks for change
    nothing: with the same limit, the script run, its effects, and the
    contacts and count returned are the same whatever [days_back] and
    [type] are. *)
Theorem getRecentContacts_ignores_window (limit : option Z)
    (days1 days2 : option Z) (type1 type2 : option string) (st : State) :
  let run1 := getRecentContacts {| RecentArgs.days_back := days1;
                                   RecentArgs.type := type1;
                                   RecentArgs.limit := limit |} st in
  let run2 := getRecentContacts {| RecentArgs.days_back := days2;
                                   RecentArgs.type := type2;
                                   RecentArgs.limit := limit |} st in
  snd run1 = snd run2
  /\ match fst run1, fst run2 with
     | Ret r1, Ret r2 =>
         RecentResponse.contacts r1 = RecentResponse.contacts r2
         /\ RecentResponse.count r1 = RecentResponse.count r2
     | Throw m1, Throw m2 => m1 = m2
     | _, _ => False
     end.
Proof.
  cbv zeta. unfold getRecentContacts, tryCatch, bind, ret, throw.
  cbn [RecentArgs.days_back RecentArgs.type RecentArgs.limit].
  destruct (executeAppleScript (recentScript (withDefault 20%Z limit)) st)
    as [[result | e] s1]; cbn [fst snd].
  - destruct (JS.truthy result); cbn [negb fst snd]; repeat split.
  - repeat split.
Qed.

(** ** Update, beyond the partial failure *)

Lemma getContact_unresolved (identifier : string) (st : State) (stdout : string)
    (w : World) :
  osascript (getContactScript identifier) (world st) = (Exited stdout, w) ->
  JS.trim stdout = contactNotFound ->
  getContact identifier st
  = (Ret {| GetResponse.success := false;
            GetResponse.message := Some contactNotFound;
            GetResponse.contact := None |},
     emit (Osascript (getContactScript identifier) (Exited stdout))
          {| world := w; events := events st |}).
Proof.
  intros Hrun Hout. unfold getContact, tryCatch, bind, ret.
  rewrite (executeAppleScript_exited _ _ _ _ Hrun), Hout. reflexivity.
Qed.

(** Fail fast: when the lookup script answers that nothing resolves,
    [updateContact] throws [Contact not found], and the lookup is the
    only script it has run; nothing is changed in the store. *)
Theorem updateContact_unresolved (args : UpdateArgs.t) (st : State)
    (stdout : string) (w : World) :
  osascript (getContactScript (UpdateArgs.identifier args)) (world st)
  = (Exited stdout, w) ->
  JS.trim stdout = contactNotFound ->
  updateContact args st
  = (Throw "Contact not found",
     emit (Osascript (getContactScript (UpdateArgs.identifier args)) (Exited stdout))
          {| world := w; events := events st |}).
Proof.
  intros Hrun Hout.
  apply (updateContact_not_found args st _ _ (getContact_unresolved _ _ _ _ Hrun Hout)).
  reflexivity.
Qed.

Lemma mutationScripts_requested (contactId : string) (updates : UpdateArgs.t)
    (f : Field) :
  requested updates f
  = match mutationScripts contactId updates f with Some _ => true | None => false end.
Proof.
  destruct f; cbn [requested mutationScripts];
    match goal with |- context [isDefined ?x] => destruct x end; reflexivity.
Qed.

Lemma Field_eq_dec (a b : Field) : {a = b} + {a <> b}.
Proof. decide equality. Defined.

Lemma applyFields_filter (contactId : string) (updates : UpdateArgs.t)
    (fields : list Field) :
  NoDup fields ->
  forall collected st out st',
    applyFields contactId updates fields collected st = (Ret out, st') ->
    exists done : Field -> bool,
      out = (collected ++ map fieldName (filter done fields))%list
      /\ forall f, done f = true -> requested updates f = true.
Proof.
  intros Hnodup. induction Hnodup as [|f fields Hnotin Hnodup IH];
    intros collected st out st' Hrun.
  - cbn in Hrun. injection Hrun as <- _. exists (fun _ => false).
    split; [now rewrite app_nil_r | discriminate].
  - cbn [applyFields] in Hrun. unfold bind in Hrun.
    destruct (applyField contactId updates f collected st) as [[c1 | e] s1] eqn:Hf;
      [| discriminate].
    destruct (IH c1 s1 out st' Hrun) as (done & -> & Hdone).
    unfold applyField in Hf.
    pose proof (mutationScripts_requested contactId updates f) as Hreq.
    destruct (mutationScripts contactId updates f) as [scripts |].
    + destruct (runScripts scripts st) as [[r | e] s2]; injection Hf as <- _.
      * exists (fun g => if Field_eq_dec g f then true else done g).
        split.
        -- cbn [filter]. destruct (Field_eq_dec f f) as [_ | Hne]; [| congruence].
           cbn [map]. rewrite <- app_assoc. cbn [app]. do 3 f_equal.
           apply filter_ext_in. intros g Hin.
           destruct (Field_eq_dec g f) as [-> | _]; [contradiction | reflexivity].
        -- intros g. destruct (Field_eq_dec g f) as [-> | _]; [now intros _ | apply Hdone].
      * exists (fun g => if Field_eq_dec g f then false else done g).
        split.
        -- cbn [filter]. destruct (Field_eq_dec f f) as [_ | Hne]; [| congruence].
           do 2 f_equal. apply filter_ext_in. intros g Hin.
           destruct (Field_eq_dec g f) as [-> | _]; [contradiction | reflexivity].
        -- intros g. destruct (Field_eq_dec g f) as [-> | _]; [discriminate | apply Hdone].
    + unfold ret in Hf. injection Hf as <- _.
      exists (fun g => if Field_eq_dec g f then false else done g).
      split.
      * cbn [filter]. destruct (Field_eq_dec f f) as [_ | Hne]; [| congruence].
        do 2 f_equal. apply filter_ext_in. intros g Hin.
        destruct (Field_eq_dec g f) as [-> | _]; [contradiction | reflexivity].
      * intros g. destruct (Field_eq_dec g f) as [-> | _]; [discriminate | apply Hdone].
Qed.

Lemma fieldOrder_NoDup : NoDup fieldOrder.
Proof.
  unfold fieldOrder.
  repeat (constructor; [cbn; intuition discriminate |]). constructor.
Qed.

Lemma updateContact_returns_inv (args : UpdateArgs.t) (st st' : State)
    (response : UpdateResponse.t) :
  updateContact args st = (Ret response, st') ->
  exists contact st1 fields,
    applyFields (Contact.id contact) args fieldOrder [] st1 = (Ret fields, st')
    /\ response = {| UpdateResponse.success := true;
                     UpdateResponse.message :=
                       "Updated contact: " ++ UpdateArgs.identifier args;
                     UpdateResponse.updated_fields := fields |}.
Proof.
  intros Hrun.
  destruct (getContact (UpdateArgs.identifier args) st) as [[existing | e] st1] eqn:Hget.
  - destruct (GetResponse.success existing) eqn:Hyes.
    + destruct (getContact_success _ _ _ _ Hget Hyes) as [contact ->].
      rewrite (updateContact_applyFields args st st1 None contact Hget) in Hrun.
      destruct (applyFields (Contact.id contact) args fieldOrder [] st1)
        as [[fields | e] s2] eqn:Happ; [| discriminate].
      injection Hrun as <- <-. now exists contact, st1, fields.
    + rewrite (updateContact_not_found args st st1 existing Hget Hyes) in Hrun.
      discriminate.
  - unfold updateContact in Hrun. unfold bind at 1 in Hrun. rewrite Hget in Hrun.
    discriminate.
Qed.

(** An update that returns always reports [success], and the fields it
    reports are fields the request holds, each at most once and in the
    fixed order name, organization, job title, note, urls, emails,
    phones, whatever order the caller wrote them in. *)
Theorem updated_fields_requested_in_order (args : UpdateArgs.t) (st st' : State)
    (response : UpdateResponse.t) :
  updateContact args st = (Ret response, st') ->
  UpdateResponse.success response = true
  /\ exists done : Field -> bool,
      UpdateResponse.updated_fields response = map fieldName (filter done fieldOrder)
      /\ forall f, done f = true -> requested args f = true.
Proof.
  intros Hrun.
  destruct (updateContact_returns_inv args st st' response Hrun)
    as (contact & st1 & fields & Happ & ->).
  split; [reflexivity |].
  destruct (applyFields_filter _ _ _ fieldOrder_NoDup _ _ _ _ Happ)
    as (done & -> & Hdone).
  now exists done.
Qed.

Lemma runScripts_cooperative (scripts : list string) :
  (forall script w, exists stdout w', osascript script w = (Exited stdout, w')) ->
  forall st, exists st', runScripts scripts st = (Ret tt, st').
Proof.
  intros Hok. induction scripts as [|script scripts IH]; intros st.
  - now exists st.
  - cbn [runScripts]. unfold bind.
    destruct (Hok script (world st)) as (out & w & Hrun).
    rewrite (executeAppleScript_exited _ _ _ _ Hrun). apply IH.
Qed.

Lemma applyFields_cooperative (contactId : string) (updates : UpdateArgs.t)
    (fields : list Field) :
  (forall script w, exists stdout w', osascript script w = (Exited stdout, w')) ->
  forall collected st,
  exists st',
    applyFields contactId updates fields collected st
    = (Ret (collected ++ map fieldName (filter (requested updates) fields))%list, st').
Proof.
  intros Hok. induction fields as [|f fields IH]; intros collected st.
  - exists st. cbn. now rewrite app_nil_r.
  - cbn [applyFields filter]. unfold bind, applyField.
    rewrite (mutationScripts_requested contactId updates f).
    destruct (mutationScripts contactId updates f) as [scripts |].
    + destruct (runScripts_cooperative scripts Hok st) as [s1 ->].
      destruct (IH (collected ++ [fieldName f])%list s1) as [s2 ->].
      exists s2. cbn [map]. now rewrite <- app_assoc.
    + unfold ret. apply IH.
Qed.

(** With an interpreter that never fails, an update whose identifier
    resolves reports every field the request holds, in the fixed
    order. *)
Theorem updateContact_all_applied (args : UpdateArgs.t) (st st1 : State)
    (existing : GetResponse.t) :
  (forall script w, exists stdout w', osascript script w = (Exited stdout, w')) ->
  getContact (UpdateArgs.identifier args) st = (Ret existing, st1) ->
  GetResponse.success existing = true ->
  exists st2,
    updateContact args st
    = (Ret {| UpdateResponse.success := true;
              UpdateResponse.message :=
                "Updated contact: " ++ UpdateArgs.identifier args;
              UpdateResponse.updated_fields :=
                map fieldName (filter (requested args) fieldOrder) |}, st2).
Proof.
  intros Hok Hget Hyes.
  destruct (getContact_success _ _ _ _ Hget Hyes) as [contact ->].
  rewrite (updateContact_applyFields args st st1 None contact Hget).
  destruct (applyFields_cooperative (Contact.id contact) args fieldOrder Hok [] st1)
    as [st2 ->].
  now exists st2.
Qed.

(** ** Create *)

(** [createContact] runs one script, the creation script, and nothing
    else: when the interpreter exits it answers [success] with the
    trimmed output as the new identifier and with the request echoed,
    defaults filled in; when the interpreter fails it throws and answers
    nothing. *)
Theorem createContact_one_script (args : CreateArgs.t) (st : State) :
  let script :=
    createScript (CreateArgs.name args)
      (withDefault EmptyString (CreateArgs.organization args))
      (withDefault EmptyString (CreateArgs.job_title args))
      (withDefault [] (CreateArgs.emails args))
      (withDefault [] (CreateArgs.phones args))
      (withDefault [] (CreateArgs.urls args))
      (withDefault EmptyString (CreateArgs.note args)) in
  match osascript script (world st) with
  | (Exited stdout, w) =>
      exists response,
        createContact args st
        = (Ret response,
           emit (Osascript script (Exited stdout)) {| world := w; events := events st |})
        /\ CreateResponse.success response = true
        /\ CreateResponse.contact_id response = JS.trim stdout
        /\ CreatedContact.name (CreateResponse.contact response) = CreateArgs.name args
        /\ CreatedContact.emails (CreateResponse.contact response)
           = withDefault [] (CreateArgs.emails args)
  | (Failed error, w) =>
      createContact args st
      = (Throw ("Create contact failed: "
                ++ errorToString ("AppleScript execution failed: " ++ error)),
         emit (Osascript script (Failed error)) {| world := w; events := events st |})
  end.
Proof.
  cbv zeta. unfold createContact, tryCatch, bind, ret, throw, executeAppleScript.
  destruct (osascript _ (world st)) as [[stdout | error] w].
  - eexists. repeat split.
  - reflexivity.
Qed.

(** ** The tool handler *)

(** The call handler never throws: every call is answered with one text
    item.  When the operation returns, the text is its value printed and
    no error flag is set; when it throws, the failure is written to the
    console and the answer carries the message after [Error: ] with the
    error flag set. *)
Theorem handleCallTool_never_throws (stringify : ToolValue -> string)
    (name : string) (args : ToolArguments.t) (st : State) :
  match dispatch name args st with
  | (Ret value, st1) =>
      handleCallTool stringify name args st
      = (Ret {| ToolResponse.content :=
                  [ {| ContentItem.type := "text";
                       ContentItem.text := stringify value |} ];
                ToolResponse.isError := None |}, st1)
  | (Throw message, st1) =>
      handleCallTool stringify name args st
      = (Ret {| ToolResponse.content :=
                  [ {| ContentItem.type := "text";
                       ContentItem.text := "Error: " ++ message |} ];
                ToolResponse.isError := Some true |},
         emit (ConsoleError ("Error executing tool " ++ name ++ ":") message) st1)
  end.
Proof.
  unfold handleCallTool, tryCatch, bind, ret, consoleError.
  destruct (dispatch name args st) as [[value | message] st1]; reflexivity.
Qed.

(** A call to a tool the server does not have runs no script and is
    answered with the error text [Unknown tool: ] and the name. *)
Theorem handleCallTool_unknown_tool (stringify : ToolValue -> string)
    (name : string) (args : ToolArguments.t) (st : State) :
  existsb (String.eqb name)
    [ "search_contacts"; "get_contact"; "create_contact"; "update_contact";
      "get_recent_contacts" ] = false ->
  handleCallTool stringify name args st
  = (Ret {| ToolResponse.content :=
              [ {| ContentItem.type := "text";
                   ContentItem.text := "Error: Unknown tool: " ++ name |} ];
            ToolResponse.isError := Some true |},
     emit (ConsoleError ("Error executing tool " ++ name ++ ":")
                        ("Unknown tool: " ++ name)) st).
Proof.
  intros H. cbn [existsb] in H.
  repeat (apply orb_false_elim in H as [? H]).
  unfold handleCallTool, tryCatch, bind, ret, consoleError, dispatch, throw.
  repeat match goal with E : String.eqb name _ = false |- _ => rewrite E; clear E end.
  reflexivity.
Qed.

(** The same unresolved identifier is answered in two ways: a fetch
    gives an ordinary answer, the printed value with [success] false and
    the message [Contact not found]; an update gives an error answer
    with the text [Error: Contact not found].  Each runs the lookup
    script and no other. *)
Theorem unresolved_fetch_answers_update_fails (stringify : ToolValue -> string)
    (args : ToolArguments.t) (st : State) (stdout : string) (w : World) :
  osascript (getContactScript (templateText (ToolArguments.identifier args))) (world st)
  = (Exited stdout, w) ->
  JS.trim stdout = contactNotFound ->
  let looked :=
    emit (Osascript (getContactScript (templateText (ToolArguments.identifier args)))
                    (Exited stdout))
         {| world := w; events := events st |} in
  handleCallTool stringify "get_contact" args st
  = (Ret {| ToolResponse.content :=
              [ {| ContentItem.type := "text";
                   ContentItem.text :=
                     stringify
                       (GetValue {| GetResponse.success := false;
                                    GetResponse.message := Some "Contact not found";
                                    GetResponse.contact := None |}) |} ];
            ToolResponse.isError := None |}, looked)
  /\ handleCallTool stringify "update_contact" args st
     = (Ret {| ToolResponse.content :=
                 [ {| ContentItem.type := "text";
                      ContentItem.text := "Error: Contact not found" |} ];
               ToolResponse.isError := Some true |},
        emit (ConsoleError "Error executing tool update_contact:" "Contact not found")
             looked).
Proof.
  intros Hrun Hout. cbv zeta. split.
  - unfold handleCallTool, tryCatch, dispatch. cbn [String.eqb Ascii.eqb Bool.eqb].
    unfold bind at 1 2. rewrite (getContact_unresolved _ _ _ _ Hrun Hout). reflexivity.
  - unfold handleCallTool, tryCatch, dispatch. cbn [String.eqb Ascii.eqb Bool.eqb].
    unfold bind at 1 2.
    match goal with
    | |- context [updateContact ?a st] =>
        rewrite (updateContact_not_found a st _ _
                   (getContact_unresolved _ _ _ _ Hrun Hout) eq_refl)
    end.
    reflexivity.
Qed.

End Further.

(** ** The further properties on sample runs *)

Lemma update_scripts_well_quoted_sample :
  wellQuoted (noteScript "5A3B:ABPerson" ("so-called " ++ dq ++ "genius" ++ dq ++ bs)) = true.
Proof.
  destruct (update_scripts_well_quoted "5A3B:ABPerson" eq_refl)
    as (_ & _ & _ & Hnote & _).
  apply Hnote.
Defined.


Lemma parseList_round_trip_sample :
  parseList (renderList ["ada@example.com"; "countess@example.org"])
  = ["ada@example.com"; "countess@example.org"].
Proof.
  apply parseList_round_trip.
  - discriminate.
  - repeat constructor.
Defined.

Lemma parseUrls_round_trip_sample :
  parseUrls (renderList (map renderUrl twoUrls)) = twoUrls.
Proof. apply parseUrls_round_trip. repeat constructor. Defined.

Lemma recordField_round_trip_sample :
  recordField (renderRecord "ID1" "Ada Lovelace" "Analytical Engines" EmptyString
                 "met at the Royal Society | follow up") 4
  = recordField "met at the Royal Society | follow up" 0.
Proof.
  destruct (recordField_round_trip "ID1" "Ada Lovelace" "Analytical Engines"
              EmptyString "met at the Royal Society | follow up"
              eq_refl eq_refl eq_refl eq_refl)
    as (_ & _ & _ & _ & Hnote & _).
  exact Hnote.
Defined.

Lemma parseRecent_round_trip_sample :
  parseRecent (renderRecent twoPeople) 20 = JS.slice0 twoPeople 20.
Proof.
  apply parseRecent_round_trip.
  - repeat constructor.
  - reflexivity.
Defined.

Lemma searchContacts_result_shape_sample :
  let response :=
    {| SearchResponse.success := true;
       SearchResponse.count := 1;
       SearchResponse.contacts :=
         [ {| SearchHit.name := EmptyString; SearchHit.organization := EmptyString |} ] |} in
  SearchResponse.success response = true
  /\ SearchResponse.count response = List.length (SearchResponse.contacts response)
  /\ (Z.of_nat (SearchResponse.count response) <= 20)%Z
  /\ Forall (fun hit => SearchHit.organization hit = EmptyString)
            (SearchResponse.contacts response).
Proof.
  apply (@searchContacts_result_shape silent
           {| SearchArgs.query := Some "NoSuchOrg123"; SearchArgs.limit := None |}
           (initial silent tt)
           (reached silent tt [Osascript (searchQueryScript "NoSuchOrg123") (Exited nl)])).
  - vm_compute. reflexivity.
  - cbn. lia.
Defined.

Lemma searchContacts_all_no_output_sample :
  @searchContacts silent {| SearchArgs.query := None; SearchArgs.limit := Some 5%Z |}
    (initial silent tt)
  = (Ret {| SearchResponse.success := true;
            SearchResponse.count := 0;
            SearchResponse.contacts := [] |},
     reached silent tt [Osascript (searchAllScript 5) (Exited nl)]).
Proof.
  apply (@searchContacts_all_no_output silent (Some 5%Z) (initial silent tt) nl tt);
    reflexivity.
Defined.

Lemma updateContact_unresolved_sample :
  @updateContact nothingFound organizationAndNote (initial nothingFound tt)
  = (Throw "Contact not found",
     reached nothingFound tt
       [Osascript (getContactScript "ID1") (Exited (contactNotFound ++ nl))]).
Proof.
  apply (@updateContact_unresolved nothingFound organizationAndNote
           (initial nothingFound tt) (contactNotFound ++ nl) tt); reflexivity.
Defined.

Lemma updated_fields_requested_in_order_sample :
  exists done : Field -> bool,
    ["organization"] = map fieldName (filter done fieldOrder)
    /\ forall f, done f = true -> requested organizationAndNote f = true.
Proof.
  apply (@updated_fields_requested_in_order adaOnly organizationAndNote
           (initial adaOnly tt)
           (snd (@updateContact adaOnly organizationAndNote (initial adaOnly tt)))
           {| UpdateResponse.success := true;
              UpdateResponse.message := "Updated contact: ID1";
              UpdateResponse.updated_fields := ["organization"] |}).
  vm_compute. reflexivity.
Defined.

Lemma updateContact_all_applied_sample :
  exists st2,
    @updateContact silent organizationAndNote (initial silent tt)
    = (Ret {| UpdateResponse.success := true;
              UpdateResponse.message := "Updated contact: ID1";
              UpdateResponse.updated_fields := ["organization"; "note"] |}, st2).
Proof.
  apply (@updateContact_all_applied silent organizationAndNote (initial silent tt)
           (snd (@getContact silent "ID1" (initial silent tt)))
           (match fst (@getContact silent "ID1" (initial silent tt)) with
            | Ret existing => existing
            | Throw _ => {| GetResponse.success := false;
                            GetResponse.message := None;
                            GetResponse.contact := None |}
            end)).
  - intros script w. exists nl, w. reflexivity.
  - vm_compute. reflexivity.
  - vm_compute. reflexivity.
Defined.

Lemma handleCallTool_unknown_tool_sample :
  @handleCallTool silent (fun _ => EmptyString) "delete_contact"
    (onlyIdentifier "ID1") (initial silent tt)
  = (Ret {| ToolResponse.content :=
              [ {| ContentItem.type := "text";
                   ContentItem.text := "Error: Unknown tool: delete_contact" |} ];
            ToolResponse.isError := Some true |},
     reached silent tt
       [ConsoleError "Error executing tool delete_contact:"
                     "Unknown tool: delete_contact"]).
Proof.
  apply (@handleCallTool_unknown_tool silent (fun _ => EmptyString) "delete_contact"
           (onlyIdentifier "ID1") (initial silent tt)).
  reflexivity.
Defined.

Lemma unresolved_fetch_answers_update_fails_sample :
  ToolResponse.isError
    (match fst (@handleCallTool nothingFound (fun _ => EmptyString) "get_contact"
                  (onlyIdentifier "nobody") (initial nothingFound tt)) with
     | Ret response => response
     | Throw _ => {| ToolResponse.content := []; ToolResponse.isError := Some true |}
     end) = None
  /\ fst (@handleCallTool nothingFound (fun _ => EmptyString) "update_contact"
            (onlyIdentifier "nobody") (initial nothingFound tt))
     = Ret {| ToolResponse.content :=
                [ {| ContentItem.type := "text";
                     ContentItem.text := "Error: Contact not found" |} ];
              ToolResponse.isError := Some true |}.
Proof.
  destruct (@unresolved_fetch_answers_update_fails nothingFound (fun _ => EmptyString)
              (onlyIdentifier "nobody") (initial nothingFound tt)
              (contactNotFound ++ nl) tt eq_refl eq_refl) as [Hget Hupdate].
  rewrite Hget, Hupdate. split; reflexivity.
Defined.
